(** * Connect intentions ([agent/structs/intention.go])

    A shallow embedding of the intention record and of the operations on
    it: precedence, the precedence sorter's comparator, the content hash,
    validation, the authorization gate, JSON decoding and cloning. *)

From Stdlib Require Import ZArith Strings.String Strings.Ascii Strings.Byte.
From stdpp Require Import base decidable option list sorting gmap strings.

Local Open Scope Z_scope.

(** ** Data model *)

(** Go's [int] and [uint64] on a 64-bit platform, as integers with the
    wrap-around written out. *)
Definition int_wrap (z : Z) : Z := (z + 2 ^ 63) mod 2 ^ 64 - 2 ^ 63.
Definition int_sub (a b : Z) : Z := int_wrap (a - b).
Definition uint64 (z : Z) : Z := z mod 2 ^ 64.

(** Modelled from the spec: the constant [WildcardSpecifier] is declared
    in another file of the package; the spec gives the wildcard specifier
    as the single token ["*"], and the messages of [Validate] agree. *)
Definition WildcardSpecifier : string := "*".

Definition IntentionDefaultNamespace : string := "default".

Definition IntentionAction := string.
Definition IntentionActionAllow : IntentionAction := "allow".
Definition IntentionActionDeny : IntentionAction := "deny".

Definition IntentionSourceType := string.
Definition IntentionSourceConsul : IntentionSourceType := "consul".

(** [time.Time] values are only carried around; an instant is enough. *)
Definition Time := Z.

(** [RaftIndex] is embedded in the struct and owned by the consensus
    layer: two log positions. *)
Record RaftIndex := mkRaftIndex { CreateIndex : Z; ModifyIndex : Z }.

(** The struct [Intention]. A Go map is a reference: the record is
    parametric in what the [Meta] field holds, so that the same
    declaration serves the value view ([Intention], the map's contents,
    [None] for a nil map) and the heap view ([IntentionRef], used for
    [Clone], where [Meta] is an address). A slice that is [nil] is
    [None]. *)
Record Intention_ (M : Type) : Type := mkIntention {
  ID : string;
  Description : string;
  SourceNS : string;
  SourceName : string;
  DestinationNS : string;
  DestinationName : string;
  SourceType : IntentionSourceType;
  Action : IntentionAction;
  DefaultAddr : string;
  DefaultPort : Z;
  Meta : M;
  Precedence : Z;
  CreatedAt : Time;
  UpdatedAt : Time;
  Hash : option (list byte);
  Raft : RaftIndex
}.

Arguments mkIntention {M}.
Arguments ID {M}.
Arguments Description {M}.
Arguments SourceNS {M}.
Arguments SourceName {M}.
Arguments DestinationNS {M}.
Arguments DestinationName {M}.
Arguments SourceType {M}.
Arguments Action {M}.
Arguments DefaultAddr {M}.
Arguments DefaultPort {M}.
Arguments Meta {M}.
Arguments Precedence {M}.
Arguments CreatedAt {M}.
Arguments UpdatedAt {M}.
Arguments Hash {M}.
Arguments Raft {M}.

Abbreviation MetaMap := (gmap string string).
Abbreviation Intention := (Intention_ (option MetaMap)).

(** Field assignments. *)
Definition set_Precedence {M} (p : Z) (x : Intention_ M) : Intention_ M :=
  mkIntention (ID x) (Description x) (SourceNS x) (SourceName x)
    (DestinationNS x) (DestinationName x) (SourceType x) (Action x)
    (DefaultAddr x) (DefaultPort x) (Meta x) p (CreatedAt x) (UpdatedAt x)
    (Hash x) (Raft x).

Definition set_Hash {M} (h : option (list byte)) (x : Intention_ M) : Intention_ M :=
  mkIntention (ID x) (Description x) (SourceNS x) (SourceName x)
    (DestinationNS x) (DestinationName x) (SourceType x) (Action x)
    (DefaultAddr x) (DefaultPort x) (Meta x) (Precedence x) (CreatedAt x)
    (UpdatedAt x) h (Raft x).

Definition set_Meta {M N} (m : N) (x : Intention_ M) : Intention_ N :=
  mkIntention (ID x) (Description x) (SourceNS x) (SourceName x)
    (DestinationNS x) (DestinationName x) (SourceType x) (Action x)
    (DefaultAddr x) (DefaultPort x) m (Precedence x) (CreatedAt x)
    (UpdatedAt x) (Hash x) (Raft x).

(** The zero value of the struct. *)
Definition zero_Intention : Intention :=
  mkIntention "" "" "" "" "" "" "" "" "" 0 None 0 0 0 None (mkRaftIndex 0 0).

(** ** Precedence *)

(** [countExact] counts the exact values (not wildcards) in the given
    namespace and name; the receiver is not used. *)
Definition countExact (ns n : string) : Z :=
  if String.eqb ns WildcardSpecifier then 0
  else if String.eqb n WildcardSpecifier then 1
  else 2.

(** The [switch] of [UpdatePrecedence] over the destination's count:
    [None] is its [default] branch. *)
Definition precedence_max (c : Z) : option Z :=
  match c with
  | 2 => Some 9
  | 1 => Some 6
  | 0 => Some 3
  | _ => None
  end.

Definition UpdatePrecedence {M} (x : Intention_ M) : Intention_ M :=
  match precedence_max (countExact (DestinationNS x) (DestinationName x)) with
  | None => set_Precedence 0 x
  | Some max =>
      let countSrc := countExact (SourceNS x) (SourceName x) in
      set_Precedence (int_sub max (int_sub 2 countSrc)) x
  end.

(** [strings.Contains s substr]: [substr] occurs somewhere in [s]. *)
Fixpoint strings_Contains (s substr : string) : bool :=
  String.prefix substr s ||
  match s with
  | EmptyString => false
  | String _ s' => strings_Contains s' substr
  end.

(** The legality rules of an identifier tuple, as the data model states
    them: each part is non-empty, is the wildcard or is free of the
    wildcard character, and an exact name never follows a wildcard
    namespace. *)
Definition valid_part (s : string) : Prop :=
  s ≠ "" ∧ (s = WildcardSpecifier ∨ strings_Contains s WildcardSpecifier = false).

Definition valid_tuple (ns n : string) : Prop :=
  valid_part ns ∧ valid_part n ∧ (ns = WildcardSpecifier → n = WildcardSpecifier).

Definition valid_tuples {M} (x : Intention_ M) : Prop :=
  valid_tuple (SourceNS x) (SourceName x) ∧
  valid_tuple (DestinationNS x) (DestinationName x).

(** Which of the four fields are wildcards. *)
Definition is_wildcard (s : string) : bool := String.eqb s WildcardSpecifier.

Definition wildcard_pattern {M} (x : Intention_ M) : bool * bool * bool * bool :=
  (is_wildcard (SourceNS x), is_wildcard (SourceName x),
   is_wildcard (DestinationNS x), is_wildcard (DestinationName x)).

(** The exactness of a tuple: how many of its two parts are exact. *)
Definition exactness (ns n : string) : Z :=
  (if is_wildcard ns then 0 else 1) + (if is_wildcard n then 0 else 1).

(** ** The precedence sorter *)

(** [IntentionPrecedenceSorter] is a slice of intentions with the three
    methods of [sort.Interface]. *)
Abbreviation IntentionPrecedenceSorter := (list Intention).

Definition Len (s : IntentionPrecedenceSorter) : Z := Z.of_nat (length s).

(** The body of [Less] on the two elements [a := s[i]] and [b := s[j]]. *)
Definition less {M} (a b : Intention_ M) : bool :=
  if negb (Precedence a =? Precedence b) then Precedence b <? Precedence a
  else if negb (String.eqb (SourceNS a) (SourceNS b))
       then String.ltb (SourceNS a) (SourceNS b)
  else if negb (String.eqb (SourceName a) (SourceName b))
       then String.ltb (SourceName a) (SourceName b)
  else if negb (String.eqb (DestinationNS a) (DestinationNS b))
       then String.ltb (DestinationNS a) (DestinationNS b)
  else String.ltb (DestinationName a) (DestinationName b).

(** [Less] and [Swap] index the slice; an index out of range panics
    ([None]). *)
Definition Less (s : IntentionPrecedenceSorter) (i j : nat) : option bool :=
  a ← s !! i; b ← s !! j; Some (less a b).

Definition Swap (s : IntentionPrecedenceSorter) (i j : nat)
  : option IntentionPrecedenceSorter :=
  a ← s !! i; b ← s !! j; Some (<[i := b]> (<[j := a]> s)).

(** What the comparator looks at. *)
Definition sort_key {M} (a : Intention_ M) : Z * list string :=
  (Precedence a, [SourceNS a; SourceName a; DestinationNS a; DestinationName a]).

(** The canonical ordering in the spec's words: byte-wise lexicographic
    order on tuples of strings, under a descending precedence. *)
Definition string_lt (s1 s2 : string) : Prop := String.compare s1 s2 = Lt.

Fixpoint tuple_lt (t1 t2 : list string) : Prop :=
  match t1, t2 with
  | s1 :: t1', s2 :: t2' => string_lt s1 s2 ∨ (s1 = s2 ∧ tuple_lt t1' t2')
  | _, _ => False
  end.

Definition precedes (k1 k2 : Z * list string) : Prop :=
  k1.1 > k2.1 ∨ (k1.1 = k2.1 ∧ tuple_lt k1.2 k2.2).

(** The same order, or the same key. *)
Definition key_le (k1 k2 : Z * list string) : Prop := precedes k1 k2 ∨ k1 = k2.

(** A slice is in order for [sort.Interface] when no element is [Less]
    than the one before it. *)
Definition in_order {M} (a b : Intention_ M) : Prop := less b a = false.

Definition sorted {M} (l : list (Intention_ M)) : Prop := Sorted in_order l.

(** ** The authorization gate *)

(** The decisions of the [acl] package. *)
Inductive EnforcementDecision := acl_Deny | acl_Default | acl_Allow.

Global Instance EnforcementDecision_eq_dec : EqDecision EnforcementDecision.
Proof. solve_decision. Defined.

Section authz.
(** [acl.AuthorizerContext] and the method [FillAuthzContext] are
    declared outside this file. *)
Context {AuthorizerContext : Type}.
Variable zero_AuthorizerContext : AuthorizerContext.
Variable FillAuthzContext :
  Intention → AuthorizerContext → bool → AuthorizerContext.

(** The two capability checks of [acl.Authorizer] that the gate uses. *)
Record Authorizer := mkAuthorizer {
  IntentionRead : string → AuthorizerContext → EnforcementDecision;
  IntentionWrite : string → AuthorizerContext → EnforcementDecision
}.

(** A nil interface value is [None]. *)
Definition CanRead (ixn : Intention) (authz : option Authorizer) : bool :=
  match authz with
  | None => true
  | Some authz =>
      let authzContext := zero_AuthorizerContext in
      let '(authzContext, src) :=
        if negb (String.eqb (SourceName ixn) "") then
          let c := FillAuthzContext ixn authzContext false in
          (c, bool_decide (IntentionRead authz (SourceName ixn) c = acl_Allow))
        else (authzContext, false) in
      if src then true
      else if negb (String.eqb (DestinationName ixn) "") then
        let c := FillAuthzContext ixn authzContext true in
        bool_decide (IntentionRead authz (DestinationName ixn) c = acl_Allow)
      else false
  end.

Definition CanWrite (ixn : Intention) (authz : option Authorizer) : bool :=
  match authz with
  | None => true
  | Some authz =>
      let authzContext := zero_AuthorizerContext in
      if String.eqb (DestinationName ixn) "" then false
      else
        let c := FillAuthzContext ixn authzContext true in
        bool_decide (IntentionWrite authz (DestinationName ixn) c = acl_Allow)
  end.
End authz.

Arguments Authorizer : clear implicits.
Arguments mkAuthorizer {AuthorizerContext}.

(** ** Iterating over a Go map *)

(** The entries of a [Meta] field; a nil map has none. *)
Definition meta_entries (m : option MetaMap) : MetaMap := default ∅ m.

(** [for k, v := range m] visits every entry once, in an order the
    language leaves open: a loop over a map takes the sequence of visited
    entries as an argument, and [range_of m kvs] says that [kvs] is one
    the runtime may produce. *)
Definition range_of (m : option MetaMap) (kvs : list (string * string)) : Prop :=
  kvs ≡ₚ map_to_list (meta_entries m).

(** [m[k]]: the zero value when the key is missing. *)
Definition map_index (m : option MetaMap) (k : string) : string :=
  default "" (meta_entries m !! k).

(** [len(m)] and [len(s)] as Go [int]s. *)
Definition len_map (m : option MetaMap) : Z := Z.of_nat (size (meta_entries m)).
Definition len_string (s : string) : Z := Z.of_nat (String.length s).

(** ** The content hash *)

(** [[]byte(s)]. *)
Definition bytes (s : string) : list byte := String.list_byte_of_string s.

Definition byte_of_Z (z : Z) : byte :=
  default Byte.x00 (Byte.of_N (Z.to_N (z mod 256))).

(** [binary.Write(hash, binary.LittleEndian, v)] for a [uint64]. *)
Definition LittleEndian_uint64 (v : Z) : list byte :=
  (λ i, byte_of_Z (Z.shiftr v (8 * i))) <$> [0; 1; 2; 3; 4; 5; 6; 7].

(** [sort.Strings]: increasing byte-wise order. *)
Definition sort_Strings (keys : list string) : list string :=
  merge_sort String.le keys.

(** The bytes written for the user-set fields, in the order of the
    calls. *)
Definition field_writes {M} (x : Intention_ M) : list byte :=
  bytes (ID x) ++ bytes (Description x) ++
  bytes (SourceNS x) ++ bytes (SourceName x) ++
  bytes (DestinationNS x) ++ bytes (DestinationName x) ++
  bytes (SourceType x) ++ bytes (Action x) ++
  LittleEndian_uint64 (uint64 (Precedence x)).

(** The bytes written by the loop over the sorted keys. *)
Definition meta_writes (m : option MetaMap) (keys : list string) : list byte :=
  foldl (λ h k, h ++ bytes k ++ bytes (map_index m k)) [] keys.

(** Everything [SetHash] writes to the hash state, [kvs] being the order
    in which [range x.Meta] yields the keys. *)
Definition hash_writes (kvs : list (string * string)) (x : Intention) : list byte :=
  let keys := foldl (λ keys kv, keys ++ [kv.1]) [] kvs in
  let keys := sort_Strings keys in
  field_writes x ++ meta_writes (Meta x) keys.

Section hashing.
(** The digest of [blake2b.New256(nil)] over everything written to it
    (from [golang.org/x/crypto]). *)
Variable blake2b_Sum256 : list byte → list byte.

Definition SetHash (kvs : list (string * string)) (x : Intention) : Intention :=
  set_Hash (Some (blake2b_Sum256 (hash_writes kvs x))) x.
End hashing.

(** The content fields that the digest is meant to cover: the eight
    strings and the precedence, and the entries of [Meta]. *)
Definition fixed_content {M} (x : Intention_ M) : list string * Z :=
  ([ID x; Description x; SourceNS x; SourceName x; DestinationNS x;
    DestinationName x; SourceType x; Action x],
   Precedence x).

Definition content (x : Intention) : list string * Z * MetaMap :=
  (fixed_content x, meta_entries (Meta x)).

(** The eight strings that [SetHash] writes, by name. *)
Inductive HashedString :=
  | HID | HDescription | HSourceNS | HSourceName
  | HDestinationNS | HDestinationName | HSourceType | HAction.

Global Instance HashedString_eq_dec : EqDecision HashedString.
Proof. solve_decision. Defined.

Definition hashed_string {M} (f : HashedString) (x : Intention_ M) : string :=
  match f with
  | HID => ID x
  | HDescription => Description x
  | HSourceNS => SourceNS x
  | HSourceName => SourceName x
  | HDestinationNS => DestinationNS x
  | HDestinationName => DestinationName x
  | HSourceType => SourceType x
  | HAction => Action x
  end.

(** ** Validation *)

Inductive Field := FSourceNS | FSourceName | FDestinationNS | FDestinationName.

Global Instance Field_eq_dec : EqDecision Field.
Proof. solve_decision. Defined.

Definition field_of {M} (f : Field) (x : Intention_ M) : string :=
  match f with
  | FSourceNS => SourceNS x
  | FSourceName => SourceName x
  | FDestinationNS => DestinationNS x
  | FDestinationName => DestinationName x
  end.

(** The errors [Validate] appends, one constructor per message:
    - [MustBeSet f]: "<f> must be set";
    - [PartialWildcard f]: "<f>: wildcard character '*' cannot be used
      with partial values";
    - [ExactAfterWildcard f]: "<f>: exact value cannot follow wildcard
      namespace" ([f] a name);
    - [DescriptionTooLong]: "Description exceeds maximum length %d";
    - [MetaTooManyPairs]: "Meta exceeds maximum element count %d";
    - [MetaKeyTooLong k]: "Meta key %q exceeds maximum length %d";
    - [MetaValueTooLong k]: "Meta value for key %q exceeds maximum
      length %d";
    - [ActionInvalid]: "Action must be set to 'allow' or 'deny'";
    - [SourceTypeInvalid]: "SourceType must be set to 'consul'". *)
Inductive ValidationError :=
  | MustBeSet (f : Field)
  | PartialWildcard (f : Field)
  | ExactAfterWildcard (f : Field)
  | DescriptionTooLong
  | MetaTooManyPairs
  | MetaKeyTooLong (k : string)
  | MetaValueTooLong (k : string)
  | ActionInvalid
  | SourceTypeInvalid.

Global Instance ValidationError_eq_dec : EqDecision ValidationError.
Proof. solve_decision. Defined.

(** The namespace a name follows. *)
Definition namespace_of (f : Field) : option Field :=
  match f with
  | FSourceName => Some FSourceNS
  | FDestinationName => Some FDestinationNS
  | _ => None
  end.

Section validation.
(** The three limits are constants of the package declared in another
    file. *)
Variables metaKeyMaxLength metaMaxKeyPairs metaValueMaxLength : Z.

(** [multierror.Append(result, err)] under a condition. *)
Definition append_if (c : bool) (e : ValidationError)
    (result : list ValidationError) : list ValidationError :=
  if c then result ++ [e] else result.

(** The errors that the loop over [Meta] appends for one entry. *)
Definition entry_errors (kv : string * string) : list ValidationError :=
  append_if (metaValueMaxLength <? len_string kv.2) (MetaValueTooLong kv.1)
    (append_if (metaKeyMaxLength <? len_string kv.1) (MetaKeyTooLong kv.1) []).

(** The wildcard checks of one field. *)
Definition check_wildcard (f : Field) (x : Intention)
    (result : list ValidationError) : list ValidationError :=
  if negb (String.eqb (field_of f x) WildcardSpecifier) then
    let result :=
      append_if (strings_Contains (field_of f x) WildcardSpecifier)
        (PartialWildcard f) result in
    match namespace_of f with
    | Some ns =>
        append_if (String.eqb (field_of ns x) WildcardSpecifier)
          (ExactAfterWildcard f) result
    | None => result
    end
  else result.

(** The errors accumulated by [Validate], in the order of the appends;
    [kvs] is the order in which [range x.Meta] yields the entries. *)
Definition Validate_errors (kvs : list (string * string)) (x : Intention)
    : list ValidationError :=
  let result := [] in
  let result := append_if (String.eqb (SourceNS x) "") (MustBeSet FSourceNS) result in
  let result := append_if (String.eqb (SourceName x) "") (MustBeSet FSourceName) result in
  let result := append_if (String.eqb (DestinationNS x) "") (MustBeSet FDestinationNS) result in
  let result := append_if (String.eqb (DestinationName x) "") (MustBeSet FDestinationName) result in
  let result := check_wildcard FSourceNS x result in
  let result := check_wildcard FSourceName x result in
  let result := check_wildcard FDestinationNS x result in
  let result := check_wildcard FDestinationName x result in
  let result :=
    append_if (metaValueMaxLength <? len_string (Description x))
      DescriptionTooLong result in
  let result :=
    append_if (metaMaxKeyPairs <? len_map (Meta x)) MetaTooManyPairs result in
  let result :=
    foldl (λ result kv,
             let result :=
               append_if (metaKeyMaxLength <? len_string kv.1)
                 (MetaKeyTooLong kv.1) result in
             append_if (metaValueMaxLength <? len_string kv.2)
               (MetaValueTooLong kv.1) result)
          result kvs in
  let result :=
    append_if (negb (String.eqb (Action x) IntentionActionAllow
                     || String.eqb (Action x) IntentionActionDeny))
      ActionInvalid result in
  let result :=
    append_if (negb (String.eqb (SourceType x) IntentionSourceConsul))
      SourceTypeInvalid result in
  result.

(** [Validate] returns a nil [error] ([None]) when nothing was
    appended, and the multi-error otherwise. *)
Definition Validate (kvs : list (string * string)) (x : Intention)
    : option (list ValidationError) :=
  match Validate_errors kvs x with
  | [] => None
  | errs => Some errs
  end.

(** The rules of the validation engine, in the spec's words: which
    rule an intention violates. *)
Definition violates (x : Intention) (e : ValidationError) : Prop :=
  match e with
  | MustBeSet f => field_of f x = ""
  | PartialWildcard f =>
      field_of f x ≠ WildcardSpecifier ∧
      strings_Contains (field_of f x) WildcardSpecifier = true
  | ExactAfterWildcard f =>
      ∃ ns, namespace_of f = Some ns ∧
            field_of f x ≠ WildcardSpecifier ∧
            field_of ns x = WildcardSpecifier
  | DescriptionTooLong => len_string (Description x) > metaValueMaxLength
  | MetaTooManyPairs => len_map (Meta x) > metaMaxKeyPairs
  | MetaKeyTooLong k =>
      is_Some (meta_entries (Meta x) !! k) ∧ len_string k > metaKeyMaxLength
  | MetaValueTooLong k =>
      ∃ v, meta_entries (Meta x) !! k = Some v ∧
           len_string v > metaValueMaxLength
  | ActionInvalid =>
      Action x ≠ IntentionActionAllow ∧ Action x ≠ IntentionActionDeny
  | SourceTypeInvalid => SourceType x ≠ IntentionSourceConsul
  end.
End validation.

(** ** JSON decoding *)

(** The auxiliary struct of [UnmarshalJSON]: three string fields that
    shadow the fields of the same name of the embedded alias, which
    points to the receiver. *)
Record Aux := mkAux {
  aux_Hash : string;
  aux_CreatedAt : string;
  aux_UpdatedAt : string;
  aux_Alias : Intention
}.

Section json.
(** [lib.UnmarshalJSON] is declared in another package: it decodes
    [data] into the struct it is given and returns an [error] or nil
    ([None]), leaving the struct as far as it got. *)
Context {Error : Type}.
Variable lib_UnmarshalJSON : list byte → Aux → option Error * Aux.

Definition UnmarshalJSON (data : list byte) (t : Intention)
    : option Error * Intention :=
  let aux := mkAux "" "" "" t in
  let '(err, aux) := lib_UnmarshalJSON data aux in
  match err with
  | Some err => (Some err, aux_Alias aux)
  | None =>
      let t := aux_Alias aux in
      let t :=
        if negb (String.eqb (aux_Hash aux) "")
        then set_Hash (Some (bytes (aux_Hash aux))) t
        else t in
      (None, t)
  end.

(** The decoder stores the key [Hash] in the outer field of that name,
    which hides the embedded one: it never writes the receiver's
    [Hash]. *)
Definition shadows_Hash : Prop :=
  ∀ data aux,
    Hash (aux_Alias (lib_UnmarshalJSON data aux).2) = Hash (aux_Alias aux).
End json.

(** ** Cloning *)

(** Addresses, and a heap of intention structs and of maps. In the heap
    view the [Meta] field holds the address of a map, or nil. *)
Definition loc := positive.
Abbreviation IntentionRef := (Intention_ (option loc)).

Record heap := mkHeap {
  structs : gmap loc IntentionRef;
  maps : gmap loc MetaMap
}.

(** A mutation of the map at address [l], such as [m[k] = v] or
    [delete(m, k)]. *)
Definition map_update (l : loc) (f : MetaMap → MetaMap) (σ : heap) : heap :=
  mkHeap (structs σ) (alter f l (maps σ)).

Definition map_store (l : loc) (k v : string) (σ : heap) : heap :=
  map_update l (insert k v) σ.

(** [make(map[string]string)]. *)
Definition make_map (σ : heap) : loc * heap :=
  let l := fresh (dom (maps σ)) in
  (l, mkHeap (structs σ) (<[l := ∅]> (maps σ))).

(** A struct that escapes is allocated on the heap. *)
Definition new_struct (x : IntentionRef) (σ : heap) : loc * heap :=
  let p := fresh (dom (structs σ)) in
  (p, mkHeap (<[p := x]> (structs σ)) (maps σ)).

(** [Clone] on the struct at address [t]; [kvs] is the order in which
    [range t.Meta] yields the entries. Dereferencing an address that
    holds nothing panics ([None]). *)
Definition Clone (kvs : list (string * string)) (σ : heap) (t : loc)
    : option (loc * heap) :=
  x ← structs σ !! t;
  let t2 := x in
  '(t2, σ) ←
    match Meta x with
    | Some l =>
        _ ← maps σ !! l;
        let '(l2, σ) := make_map σ in
        let t2 := set_Meta (Some l2) t2 in
        let σ := foldl (λ σ kv, map_store l2 kv.1 kv.2 σ) σ kvs in
        Some (t2, σ)
    | None => Some (t2, σ)
    end;
  let t2 := set_Hash None t2 in
  Some (new_struct t2 σ).

(** The contents of a struct of the heap: its [Meta] address replaced by
    the entries found there. *)
Definition resolve (σ : heap) (x : IntentionRef) : option Intention :=
  match Meta x with
  | Some l => m ← maps σ !! l; Some (set_Meta (Some m) x)
  | None => Some (set_Meta None x)
  end.

Definition load (σ : heap) (p : loc) : option Intention :=
  x ← structs σ !! p; resolve σ x.

(** A heap is well formed when the [Meta] of the struct at [t] is nil or
    the address of a map, and [kvs] is a possible order of a loop over
    it. *)
Definition Meta_allocated (σ : heap) (t : loc) : Prop :=
  ∀ x l, structs σ !! t = Some x → Meta x = Some l → is_Some (maps σ !! l).

Definition range_of_Meta (σ : heap) (t : loc) (kvs : list (string * string)) : Prop :=
  ∀ x l m, structs σ !! t = Some x → Meta x = Some l → maps σ !! l = Some m →
           kvs ≡ₚ map_to_list m.

(** ** Sample values *)

Definition ixn (src_ns src dst_ns dst : string) (action : IntentionAction)
    : Intention :=
  mkIntention "" "" src_ns src dst_ns dst IntentionSourceConsul action
    "" 0 None 0 0 0 None (mkRaftIndex 0 0).

Definition web_to_db : Intention := ixn "default" "web" "default" "db" "allow".
Definition any_to_db : Intention := ixn "default" "*" "default" "db" "allow".
Definition any_to_any : Intention := ixn "default" "*" "default" "*" "allow".
Definition api_to_sql : Intention := ixn "prod" "api" "prod" "sql" "deny".
Definition web_to_db_deny : Intention := ixn "default" "web" "default" "db" "deny".
Definition web_to_nothing : Intention := ixn "default" "web" "default" "" "allow".
Definition nobody_to_db : Intention := ixn "default" "" "default" "db" "permit".

(** Two rules on the same pair of services that differ in their action,
    and three rules of different precedence. *)
Definition allow_web_db : Intention := UpdatePrecedence web_to_db.
Definition deny_web_db : Intention := UpdatePrecedence web_to_db_deny.
Definition three_rules : list Intention :=
  [UpdatePrecedence any_to_any; UpdatePrecedence web_to_db;
   UpdatePrecedence any_to_db].

Definition with_ID (id desc : string) (x : Intention) : Intention :=
  mkIntention id desc (SourceNS x) (SourceName x) (DestinationNS x)
    (DestinationName x) (SourceType x) (Action x) (DefaultAddr x)
    (DefaultPort x) (Meta x) (Precedence x) (CreatedAt x) (UpdatedAt x)
    (Hash x) (Raft x).

(** An authorizer that allows everything. *)
Definition allow_all : Authorizer unit :=
  mkAuthorizer (λ _ _, acl_Allow) (λ _ _, acl_Allow).

Definition with_Meta (l : list (string * string)) (x : Intention) : Intention :=
  set_Meta (Some (list_to_map l : MetaMap)) x.

(** An intention with two metadata entries, and the same one as it
    comes back from a store that stamped it. *)
Definition two_tags : list (string * string) :=
  [("team", "payments"); ("env", "prod")].
Definition tagged : Intention := with_Meta two_tags (with_ID "i-1" "" allow_web_db).
Definition tagged_stored : Intention :=
  mkIntention "i-1" "" "default" "web" "default" "db" "consul" "allow"
    "" 0 (Some (list_to_map (reverse two_tags))) 9 17 42
    (Some [Byte.x01]) (mkRaftIndex 5 6).

(** A stand-in for the digest in the examples. *)
Definition sample_digest (written : list byte) : list byte := take 32 written.

(** Another one, which keeps every byte written. *)
Definition plain_digest (written : list byte) : list byte := written.

(** A decoder for the examples: it takes the whole input as the hash
    string and fails on nothing. *)
Definition raw_decoder (data : list byte) (aux : Aux) : option unit * Aux :=
  (None, mkAux (String.string_of_list_byte data) "" "" (aux_Alias aux)).

(** A heap with one intention whose [Meta] lives at address 1. *)
Definition sample_heap : heap :=
  mkHeap {[ 1%positive := set_Meta (Some 1%positive) web_to_db ]}
         {[ 1%positive := {[ "team" := "payments" ]} ]}.

(** ** Size estimate *)

Definition int_add (a b : Z) : Z := int_wrap (a + b).

(** [EstimateSize]: 56 bytes for the fixed part, the lengths of the
    strings other than the ID, and the lengths of the [Meta] keys and
    values, added up in the order in which [range x.Meta] yields the
    entries. *)
Definition EstimateSize (kvs : list (string * string)) (x : Intention) : Z :=
  let size :=
    int_add (int_add (int_add (int_add (int_add (int_add (int_add 56
      (len_string (Description x))) (len_string (SourceNS x)))
      (len_string (SourceName x))) (len_string (DestinationNS x)))
      (len_string (DestinationName x))) (len_string (SourceType x)))
      (len_string (Action x)) in
  foldl (λ size kv, int_add size (int_add (len_string kv.1) (len_string kv.2)))
        size kvs.

(** The sum that the estimate stands for. *)
Definition sum_Z (l : list Z) : Z := foldr Z.add 0 l.

Definition entry_size (kv : string * string) : Z :=
  len_string kv.1 + len_string kv.2.

(** ** Queries *)

(** [IntentionQueryExact] and its [Validate], which appends one error
    per missing parameter: [IsMissing f] is "<f> is missing". *)
Module IntentionQueryExact.
Record t := mk {
  SourceNS : string;
  SourceName : string;
  DestinationNS : string;
  DestinationName : string
}.

Inductive error := IsMissing (f : Field).

Definition Validate (q : t) : option (list error) :=
  let err := [] in
  let err := if String.eqb (SourceNS q) "" then err ++ [IsMissing FSourceNS] else err in
  let err := if String.eqb (SourceName q) "" then err ++ [IsMissing FSourceName] else err in
  let err := if String.eqb (DestinationNS q) ""
             then err ++ [IsMissing FDestinationNS] else err in
  let err := if String.eqb (DestinationName q) ""
             then err ++ [IsMissing FDestinationName] else err in
  match err with
  | [] => None
  | _ => Some err
  end.

(** The parameter a field name stands for. *)
Definition field (f : Field) (q : t) : string :=
  match f with
  | FSourceNS => SourceNS q
  | FSourceName => SourceName q
  | FDestinationNS => DestinationNS q
  | FDestinationName => DestinationName q
  end.
End IntentionQueryExact.

(** The query that looks an intention up by its own four names. *)
Definition exact_of {M} (x : Intention_ M) : IntentionQueryExact.t :=
  IntentionQueryExact.mk (SourceNS x) (SourceName x) (DestinationNS x)
    (DestinationName x).

(** [strconv.FormatUint(v, 16)]: the digits of [v] in base 16, most
    significant first, produced from the least significant one by
    masking and shifting; [fuel] bounds the number of digits after the
    first, 15 being enough for a [uint64]. *)
Definition hex_digit (d : Z) : ascii :=
  match d with
  | 0 => "0" | 1 => "1" | 2 => "2" | 3 => "3" | 4 => "4" | 5 => "5"
  | 6 => "6" | 7 => "7" | 8 => "8" | 9 => "9" | 10 => "a" | 11 => "b"
  | 12 => "c" | 13 => "d" | 14 => "e" | _ => "f"
  end%char.

Fixpoint formatBits16 (fuel : nat) (u : Z) (a : string) : string :=
  match fuel with
  | O => String (hex_digit u) a
  | S fuel =>
      if 16 <=? u
      then formatBits16 fuel (Z.shiftr u 4) (String (hex_digit (Z.land u 15)) a)
      else String (hex_digit u) a
  end.

Definition FormatUint16 (v : Z) : string := formatBits16 15 v "".

(** Reading a string of hexadecimal digits back. *)
Definition hex_value (c : ascii) : Z :=
  let n := Z.of_N (N_of_ascii c) in
  if (48 <=? n) && (n <=? 57) then n - 48 else n - 87.

Definition parse_hex (s : string) : Z :=
  foldl (λ n c, 16 * n + hex_value c) 0 (String.list_ascii_of_string s).

(** The parameters of a match request. *)
Definition IntentionMatchType := string.

Record IntentionMatchEntry := mkMatchEntry { Namespace : string; Name : string }.

Record IntentionQueryMatch := mkQueryMatch {
  Type_ : IntentionMatchType;
  Entries : list IntentionMatchEntry
}.

(** [cache.RequestInfo], as far as [CacheInfo] fills it: the other
    fields keep their zero value. *)
Module cache.
Record RequestInfo := mkRequestInfo {
  Key : string;
  Token : string;
  Datacenter : string;
  MinIndex : Z;
  Timeout : Z
}.
Definition zero : RequestInfo := mkRequestInfo "" "" "" 0 0.
End cache.

(** [IntentionQueryRequest] with the fields [CacheInfo] reads: the
    datacenter, the match parameters (nil is [None]) and, from the
    embedded [QueryOptions], the token, the minimum index and the
    maximum query time. *)
Module IntentionQueryRequest.
Record t := mk {
  Datacenter : string;
  IntentionID : string;
  Match : option IntentionQueryMatch;
  Token : string;
  MinQueryIndex : Z;
  MaxQueryTime : Z
}.

Definition RequestDatacenter (q : t) : string := Datacenter q.

Section CacheInfo.
(** [hashstructure.Hash(q.Match, nil)] returns a [uint64] and an
    [error], nil being [None]. *)
Context {Error : Type}.
Variable hashstructure_Hash : IntentionQueryMatch → Z * option Error.

Definition CacheInfo (q : t) : cache.RequestInfo :=
  match Match q with
  | None => cache.zero
  | Some m =>
      let info :=
        cache.mkRequestInfo "" (Token q) (Datacenter q) (MinQueryIndex q)
          (MaxQueryTime q) in
      let '(v, err) := hashstructure_Hash m in
      match err with
      | None =>
          cache.mkRequestInfo (FormatUint16 v) (cache.Token info)
            (cache.Datacenter info) (cache.MinIndex info) (cache.Timeout info)
      | Some _ => info
      end
  end.
End CacheInfo.
End IntentionQueryRequest.

(** Reading a little-endian byte string back as a number. *)
Definition LittleEndian_value (bs : list byte) : Z :=
  foldr (λ b acc, Z.of_N (Byte.to_N b) + 256 * acc) 0 bs.

(** ** More sample values *)

(** A structural hash for the examples: the number of entries. *)
Definition count_entries (m : IntentionQueryMatch) : Z * option unit :=
  (uint64 (Z.of_nat (length (Entries m))), None).

Definition match_db : IntentionQueryMatch :=
  mkQueryMatch "destination" [mkMatchEntry "default" "db"].

Definition query_db : IntentionQueryRequest.t :=
  IntentionQueryRequest.mk "dc1" "" (Some match_db) "token" 7 600.

Definition match_two : IntentionQueryMatch :=
  mkQueryMatch "source" [mkMatchEntry "default" "web"; mkMatchEntry "default" "api"].

Definition query_two : IntentionQueryRequest.t :=
  IntentionQueryRequest.mk "dc2" "" (Some match_two) "other" 0 0.

(** An authorizer that denies everything. *)
Definition deny_all : Authorizer unit :=
  mkAuthorizer (λ _ _, acl_Deny) (λ _ _, acl_Deny).

Definition any_to_everything : Intention := ixn "default" "web" "*" "*" "allow".
Definition partial_wildcard : Intention := ixn "default" "web*" "default" "db" "allow".

(** * Properties *)

(** ** Precedence *)

Lemma countExact_cases (ns n : string) :
  countExact ns n = 0 ∨ countExact ns n = 1 ∨ countExact ns n = 2.
Proof.
  unfold countExact.
  destruct (String.eqb ns WildcardSpecifier); [by left|].
  destruct (String.eqb n WildcardSpecifier); [right; by left | right; by right].
Qed.

(** The value [UpdatePrecedence] stores, as a function of the two counts. *)
Lemma UpdatePrecedence_counts {M} (x : Intention_ M) :
  Precedence (UpdatePrecedence x) =
    3 * countExact (DestinationNS x) (DestinationName x)
    + countExact (SourceNS x) (SourceName x) + 1.
Proof.
  unfold UpdatePrecedence.
  destruct (countExact_cases (DestinationNS x) (DestinationName x)) as [-> | [-> | ->]];
    destruct (countExact_cases (SourceNS x) (SourceName x)) as [-> | [-> | ->]];
    reflexivity.
Qed.

(** [UpdatePrecedence] writes no other field. *)
Lemma UpdatePrecedence_frame {M} (x : Intention_ M) :
  UpdatePrecedence x = set_Precedence (Precedence (UpdatePrecedence x)) x.
Proof.
  unfold UpdatePrecedence.
  by destruct (precedence_max _).
Qed.

(** On a valid tuple the count is the number of exact parts. *)
Lemma countExact_exactness (ns n : string) :
  valid_tuple ns n → countExact ns n = exactness ns n.
Proof.
  intros (_ & _ & Hfollow).
  unfold countExact, exactness, is_wildcard.
  destruct (String.eqb_spec ns WildcardSpecifier) as [Hns | Hns].
  - rewrite (Hfollow Hns). reflexivity.
  - by destruct (String.eqb n WildcardSpecifier).
Qed.

Lemma exactness_cases (ns n : string) :
  exactness ns n = 0 ∨ exactness ns n = 1 ∨ exactness ns n = 2.
Proof.
  unfold exactness.
  destruct (is_wildcard ns), (is_wildcard n); auto.
Qed.

(** C1: for intentions whose four tuple fields are valid,
    [UpdatePrecedence] assigns a precedence between 1 and 9; two such
    intentions with the same fields being wildcards get the same
    precedence whatever the strings are; the precedence is
    [3 * d + s + 1] for the destination exactness [d] and the source
    exactness [s], so that it determines the pair of exactnesses (nine
    values for the nine combinations) and a more exact destination
    outranks a less exact one whatever the sources are, a more exact
    source deciding between equal destinations; and each of the nine
    combinations is taken by some valid intention. *)
Theorem UpdatePrecedence_valid (x y : Intention) :
  valid_tuples x → valid_tuples y →
  let s a := exactness (SourceNS a) (SourceName a) in
  let d a := exactness (DestinationNS a) (DestinationName a) in
  let prec a := Precedence (UpdatePrecedence a) in
  1 ≤ prec x ≤ 9
  ∧ (wildcard_pattern x = wildcard_pattern y → prec x = prec y)
  ∧ prec x = 3 * d x + s x + 1
  ∧ (prec x = prec y ↔ s x = s y ∧ d x = d y)
  ∧ (d x < d y → prec x < prec y)
  ∧ (d x = d y → s x < s y → prec x < prec y)
  ∧ (∀ s0 d0, 0 ≤ s0 ≤ 2 → 0 ≤ d0 ≤ 2 →
       ∃ z : Intention, valid_tuples z ∧ s z = s0 ∧ d z = d0
                        ∧ prec z = 3 * d0 + s0 + 1).
Proof.
  intros [Hxs Hxd] [Hys Hyd] s d prec.
  assert (Hx : prec x = 3 * d x + s x + 1).
  { unfold prec, s, d. rewrite UpdatePrecedence_counts.
    by rewrite !countExact_exactness. }
  assert (Hy : prec y = 3 * d y + s y + 1).
  { unfold prec, s, d. rewrite UpdatePrecedence_counts.
    by rewrite !countExact_exactness. }
  pose proof (exactness_cases (SourceNS x) (SourceName x)) as Hsx.
  pose proof (exactness_cases (DestinationNS x) (DestinationName x)) as Hdx.
  pose proof (exactness_cases (SourceNS y) (SourceName y)) as Hsy.
  pose proof (exactness_cases (DestinationNS y) (DestinationName y)) as Hdy.
  fold (s x) in Hsx. fold (d x) in Hdx. fold (s y) in Hsy. fold (d y) in Hdy.
  split; [lia|]. split.
  { intros Hpat. rewrite Hx, Hy. unfold s, d, exactness.
    unfold wildcard_pattern in Hpat.
    injection Hpat as Hsns Hsn Hdns Hdn. by rewrite Hsns, Hsn, Hdns, Hdn. }
  split; [done|]. split; [lia|]. split; [lia|]. split; [lia|].
  intros s0 d0 Hs0 Hd0.
  assert (Hsrc : ∃ ns n, valid_tuple ns n ∧ exactness ns n = s0).
  { assert (s0 = 0 ∨ s0 = 1 ∨ s0 = 2) as [-> | [-> | ->]] by lia.
    - exists "*", "*". repeat split; auto; done.
    - exists "default", "*". repeat split; auto; done.
    - exists "default", "web". repeat split; auto; done. }
  assert (Hdst : ∃ ns n, valid_tuple ns n ∧ exactness ns n = d0).
  { assert (d0 = 0 ∨ d0 = 1 ∨ d0 = 2) as [-> | [-> | ->]] by lia.
    - exists "*", "*". repeat split; auto; done.
    - exists "default", "*". repeat split; auto; done.
    - exists "default", "db". repeat split; auto; done. }
  destruct Hsrc as (sns & sn & Hsv & Hse), Hdst as (dns & dn & Hdv & Hde).
  exists (ixn sns sn dns dn IntentionActionAllow).
  split; [by split|]. split; [done|]. split; [done|].
  unfold prec. rewrite UpdatePrecedence_counts. simpl.
  by rewrite !countExact_exactness, Hse, Hde.
Qed.

Lemma UpdatePrecedence_valid_witness :
  valid_tuples web_to_db ∧ valid_tuples api_to_sql ∧
  Precedence (UpdatePrecedence web_to_db) = 9 ∧
  Precedence (UpdatePrecedence api_to_sql) = 9.
Proof.
  assert (Hweb : valid_tuples web_to_db) by (repeat split; auto; done).
  assert (Hapi : valid_tuples api_to_sql) by (repeat split; auto; done).
  destruct (UpdatePrecedence_valid web_to_db api_to_sql Hweb Hapi)
    as (_ & Hsame & Hform & _).
  split; [exact Hweb|]. split; [exact Hapi|]. split.
  - exact Hform.
  - rewrite <- (Hsame eq_refl). exact Hform.
Defined.

(** C4, as the code has it: both sides exact gives 9; source
    default/"*" into the exact default/db gives 8; source default/"*"
    into destination default/"*" gives 5: the destination has one exact
    part, which caps the precedence at 6, and the source has one. *)
Theorem UpdatePrecedence_examples :
  Precedence (UpdatePrecedence web_to_db) = 9
  ∧ Precedence (UpdatePrecedence any_to_db) = 8
  ∧ Precedence (UpdatePrecedence any_to_any) = 5.
Proof. split_and!; vm_compute; reflexivity. Qed.

(** C4 as stated fails on its third example: the precedence of source
    default/"*" into destination default/"*" is not 3. *)
Lemma UpdatePrecedence_any_to_any_not_3 :
  SourceNS any_to_any = "default" ∧ SourceName any_to_any = "*"
  ∧ DestinationNS any_to_any = "default" ∧ DestinationName any_to_any = "*"
  ∧ Precedence (UpdatePrecedence any_to_any) = 5
  ∧ Precedence (UpdatePrecedence any_to_any) ≠ 3.
Proof. split_and!; vm_compute; congruence. Qed.

(** C10: [countExact] returns 0, 1 or 2 on every pair of strings, so
    the [switch] of [UpdatePrecedence] never reaches its [default]
    branch, and the precedence assigned is between 1 and 9 for every
    intention, valid or not. *)
Theorem countExact_total (ns n : string) (x : Intention) :
  (countExact ns n = 0 ∨ countExact ns n = 1 ∨ countExact ns n = 2)
  ∧ is_Some (precedence_max (countExact ns n))
  ∧ is_Some (precedence_max (countExact (DestinationNS x) (DestinationName x)))
  ∧ 1 ≤ Precedence (UpdatePrecedence x) ≤ 9.
Proof.
  split; [apply countExact_cases|]. split; [|split].
  - destruct (countExact_cases ns n) as [-> | [-> | ->]]; by eexists.
  - destruct (countExact_cases (DestinationNS x) (DestinationName x))
      as [-> | [-> | ->]]; by eexists.
  - rewrite UpdatePrecedence_counts.
    pose proof (countExact_cases (DestinationNS x) (DestinationName x)).
    pose proof (countExact_cases (SourceNS x) (SourceName x)).
    lia.
Qed.

(** ** The authorization gate *)

Section authz_properties.
Context {AuthorizerContext : Type}.
Variable zero_AuthorizerContext : AuthorizerContext.
Variable FillAuthzContext :
  Intention → AuthorizerContext → bool → AuthorizerContext.

Lemma CanWrite_nil (ixn : Intention) :
  CanWrite zero_AuthorizerContext FillAuthzContext ixn None = true.
Proof. reflexivity. Qed.

Lemma CanRead_nil (ixn : Intention) :
  CanRead zero_AuthorizerContext FillAuthzContext ixn None = true.
Proof. reflexivity. Qed.

(** With an authorizer, [CanWrite] is the write check on a non-empty
    destination name. *)
Lemma CanWrite_Some (ixn : Intention) (authz : Authorizer AuthorizerContext) :
  CanWrite zero_AuthorizerContext FillAuthzContext ixn (Some authz) = true ↔
  DestinationName ixn ≠ "" ∧
  IntentionWrite authz (DestinationName ixn)
    (FillAuthzContext ixn zero_AuthorizerContext true) = acl_Allow.
Proof.
  unfold CanWrite.
  destruct (String.eqb_spec (DestinationName ixn) "") as [Hd | Hd].
  - split; [done | intros [Hne _]; by destruct Hne].
  - simpl. rewrite bool_decide_eq_true. tauto.
Qed.

(** C3, as the code has it: on an empty [DestinationName], [CanWrite]
    returns false for every authorizer that is not nil, whatever that
    authorizer would answer; for a nil authorizer it returns true,
    the check of the nil authorizer coming first. *)
Theorem CanWrite_empty_DestinationName
    (ixn : Intention) (authz : Authorizer AuthorizerContext) :
  DestinationName ixn = "" →
  CanWrite zero_AuthorizerContext FillAuthzContext ixn (Some authz) = false
  ∧ CanWrite zero_AuthorizerContext FillAuthzContext ixn None = true.
Proof.
  intros Hd. split; [|reflexivity].
  unfold CanWrite. by rewrite Hd.
Qed.
End authz_properties.

Lemma CanWrite_empty_DestinationName_witness :
  CanWrite () (λ _ c _, c) web_to_nothing (Some allow_all) = false
  ∧ CanWrite () (λ _ c _, c) web_to_db (Some allow_all) = true.
Proof.
  split.
  - exact (proj1 (CanWrite_empty_DestinationName () (λ _ c _, c)
                    web_to_nothing allow_all eq_refl)).
  - reflexivity.
Defined.

(** C3 as stated fails for the nil authorizer: an intention with an
    empty [DestinationName] may be written. *)
Lemma CanWrite_nil_empty_DestinationName :
  DestinationName web_to_nothing = ""
  ∧ CanWrite () (λ _ c _, c) web_to_nothing None = true.
Proof. split; reflexivity. Qed.

(** ** The precedence sorter *)

(** Byte-wise order on strings. *)
Lemma string_compare_refl (s : string) : String.compare s s = Eq.
Proof.
  pose proof (String.compare_antisym s s) as H.
  by destruct (String.compare s s).
Qed.

Lemma string_ltb_lt (s1 s2 : string) : String.ltb s1 s2 = true ↔ string_lt s1 s2.
Proof.
  unfold String.ltb, string_lt.
  by destruct (String.compare s1 s2).
Qed.

Lemma string_lt_not_le (s1 s2 : string) : string_lt s1 s2 ↔ ¬ String.le s2 s1.
Proof.
  unfold string_lt, String.le, String.leb.
  rewrite (String.compare_antisym s1 s2).
  destruct (String.compare s2 s1); simpl; intuition congruence.
Qed.

Lemma string_lt_irrefl (s : string) : ¬ string_lt s s.
Proof. unfold string_lt. by rewrite string_compare_refl. Qed.

Lemma string_lt_trans (s1 s2 s3 : string) :
  string_lt s1 s2 → string_lt s2 s3 → string_lt s1 s3.
Proof.
  rewrite !string_lt_not_le. intros H12 H23 H31.
  destruct (total String.le s1 s2) as [Hle | Hle]; [|done].
  apply H23. by trans s1.
Qed.

Lemma string_lt_trichotomy (s1 s2 : string) :
  string_lt s1 s2 ∨ s1 = s2 ∨ string_lt s2 s1.
Proof.
  unfold string_lt. rewrite (String.compare_antisym s2 s1).
  destruct (String.compare s1 s2) eqn:Hc; simpl; auto.
  right; left. by apply String.compare_eq_iff.
Qed.

(** Lexicographic order on tuples. *)
Lemma tuple_lt_irrefl (t : list string) : ¬ tuple_lt t t.
Proof.
  induction t as [|s t IH]; simpl; [tauto|].
  intros [H | [_ H]]; [by apply (string_lt_irrefl s) | by apply IH].
Qed.

Lemma tuple_lt_trans (t1 t2 t3 : list string) :
  tuple_lt t1 t2 → tuple_lt t2 t3 → tuple_lt t1 t3.
Proof.
  revert t2 t3. induction t1 as [|s1 t1 IH]; intros [|s2 t2] [|s3 t3]; simpl; try tauto.
  intros [H12 | [-> H12]] [H23 | [-> H23]].
  - left. by apply (string_lt_trans s1 s2 s3).
  - by left.
  - by left.
  - right. split; [done|]. by apply (IH t2).
Qed.

Lemma tuple_lt_trichotomy (t1 t2 : list string) :
  length t1 = length t2 → tuple_lt t1 t2 ∨ t1 = t2 ∨ tuple_lt t2 t1.
Proof.
  revert t2. induction t1 as [|s1 t1 IH]; intros [|s2 t2] Hlen; simplify_eq/=; auto.
  destruct (string_lt_trichotomy s1 s2) as [H | [-> | H]]; auto.
  destruct (IH t2 Hlen) as [H | [-> | H]]; auto.
Qed.

(** The order on keys. *)
Lemma precedes_irrefl (k : Z * list string) : ¬ precedes k k.
Proof.
  intros [H | [_ H]]; [lia | by apply (tuple_lt_irrefl k.2)].
Qed.

Lemma precedes_trans (k1 k2 k3 : Z * list string) :
  precedes k1 k2 → precedes k2 k3 → precedes k1 k3.
Proof.
  unfold precedes. intros [H12 | [E12 H12]] [H23 | [E23 H23]].
  - left; lia.
  - left; lia.
  - left; lia.
  - right. split; [lia|]. by apply (tuple_lt_trans _ k2.2).
Qed.

Lemma precedes_trichotomy (k1 k2 : Z * list string) :
  length k1.2 = length k2.2 → precedes k1 k2 ∨ k1 = k2 ∨ precedes k2 k1.
Proof.
  destruct k1 as [p1 t1], k2 as [p2 t2]; unfold precedes; simpl. intros Hlen.
  destruct (Z.lt_trichotomy p1 p2) as [H | [-> | H]].
  - right; right; left; lia.
  - destruct (tuple_lt_trichotomy t1 t2 Hlen) as [H | [-> | H]]; auto.
  - left; left; lia.
Qed.

(** The comparator is the order of the keys. *)
Lemma less_precedes {M} (a b : Intention_ M) :
  less a b = true ↔ precedes (sort_key a) (sort_key b).
Proof.
  unfold less, precedes, sort_key; simpl.
  destruct (Z.eqb_spec (Precedence a) (Precedence b)) as [Ep | Ep]; simpl.
  2: { rewrite Z.ltb_lt. split; [intros; left; lia | intros [? | [? _]]; [lia | done]]. }
  assert (Hstep : ∀ (s1 s2 : string) (rest : bool) (R : Prop),
             (rest = true ↔ R) →
             (if negb (String.eqb s1 s2) then String.ltb s1 s2 else rest) = true
             ↔ string_lt s1 s2 ∨ (s1 = s2 ∧ R)).
  { intros s1 s2 rest R HR.
    destruct (String.eqb_spec s1 s2) as [-> | Hne]; simpl.
    - rewrite HR. pose proof (string_lt_irrefl s2). tauto.
    - rewrite string_ltb_lt. tauto. }
  rewrite (Hstep _ _ _ (string_lt (SourceName a) (SourceName b) ∨
            (SourceName a = SourceName b ∧
             (string_lt (DestinationNS a) (DestinationNS b) ∨
              (DestinationNS a = DestinationNS b ∧
               (string_lt (DestinationName a) (DestinationName b) ∨
                (DestinationName a = DestinationName b ∧ False))))))).
  { split; [intros H; right; by split | intros [? | [_ H]]; [lia | done]]. }
  apply Hstep, Hstep.
  rewrite string_ltb_lt. tauto.
Qed.

Lemma less_irrefl {M} (a : Intention_ M) : less a a = false.
Proof.
  apply not_true_is_false. rewrite less_precedes. apply precedes_irrefl.
Qed.

Lemma less_trans {M} (a b c : Intention_ M) :
  less a b = true → less b c = true → less a c = true.
Proof. rewrite !less_precedes. apply precedes_trans. Qed.

Lemma less_unordered {M} (a b : Intention_ M) :
  less a b = false ∧ less b a = false ↔ sort_key a = sort_key b.
Proof.
  rewrite <- !not_true_iff_false, !less_precedes. split.
  - intros [Hab Hba].
    destruct (precedes_trichotomy (sort_key a) (sort_key b)) as [H | [H | H]];
      done.
  - intros ->. split; apply precedes_irrefl.
Qed.

(** Being in order is the reflexive closure of the order of the keys. *)
Lemma in_order_key {M} (a b : Intention_ M) :
  in_order a b ↔ precedes (sort_key a) (sort_key b) ∨ sort_key a = sort_key b.
Proof.
  unfold in_order. rewrite <- not_true_iff_false, less_precedes. split.
  - intros Hba.
    destruct (precedes_trichotomy (sort_key a) (sort_key b)) as [H | [H | H]];
      auto; done.
  - intros [H | ->] H'; [|by apply precedes_irrefl in H'].
    apply (precedes_irrefl (sort_key a)). by apply (precedes_trans _ (sort_key b)).
Qed.

Global Instance key_le_trans : Transitive key_le.
Proof.
  intros k1 k2 k3 [H12 | ->] [H23 | ->]; unfold key_le; auto.
  left. by apply (precedes_trans _ k2).
Qed.

Global Instance key_le_antisymm : AntiSymm (=) key_le.
Proof.
  intros k1 k2 [H12 | ->] [H21 | H21]; auto.
  destruct (precedes_irrefl k1). by apply (precedes_trans _ k2).
Qed.

Global Instance in_order_trans {M} : Transitive (@in_order M).
Proof.
  intros a b c. rewrite !in_order_key. apply key_le_trans.
Qed.

Global Instance in_order_total {M} : Total (@in_order M).
Proof.
  intros a b. rewrite !in_order_key.
  destruct (precedes_trichotomy (sort_key a) (sort_key b)) as [H | [H | H]];
    auto.
Qed.

Global Instance in_order_dec {M} : RelDecision (@in_order M).
Proof. intros a b. unfold in_order. apply _. Defined.

(** Two sorted arrangements of the same intentions carry the same keys
    at the same positions. *)
Lemma sorted_keys_unique {M} (l1 l2 : list (Intention_ M)) :
  sorted l1 → sorted l2 → l1 ≡ₚ l2 → sort_key <$> l1 = sort_key <$> l2.
Proof.
  intros H1 H2 Hp.
  apply (Sorted_unique key_le).
  - apply (Sorted_fmap sort_key in_order key_le); [|done]. intros ??. by rewrite in_order_key.
  - apply (Sorted_fmap sort_key in_order key_le); [|done]. intros ??. by rewrite in_order_key.
  - by apply fmap_Permutation.
Qed.

Lemma NoDup_fmap_elem_inj {A B} (f : A → B) (l : list A) (x y : A) :
  NoDup (f <$> l) → x ∈ l → y ∈ l → f x = f y → x = y.
Proof.
  induction l as [|z l IH]; [by intros _ ?%elem_of_nil|].
  rewrite fmap_cons, NoDup_cons, !elem_of_cons. intros [Hz Hl] [-> | Hx] [-> | Hy] Hf; auto.
  - destruct Hz. rewrite Hf. by apply list_elem_of_fmap_2.
  - destruct Hz. rewrite <- Hf. by apply list_elem_of_fmap_2.
Qed.

Lemma sorted_unique {M} (l1 l2 : list (Intention_ M)) :
  NoDup (sort_key <$> l1) → sorted l1 → sorted l2 → l1 ≡ₚ l2 → l1 = l2.
Proof.
  intros Hnd H1 H2 Hp.
  apply (StronglySorted_unique_strong in_order); [| |by apply Sorted_StronglySorted; try apply _|done].
  - intros x1 x2 Hx1 Hx2 H12 H21.
    apply (NoDup_fmap_elem_inj sort_key l1); [done..| |].
    + by rewrite Hp.
    + apply less_unordered. by split.
  - by apply Sorted_StronglySorted; try apply _.
Qed.

(** C2, as the code has it: [Less] compares the two indexed elements;
    the comparator is irreflexive and transitive; it is the order of the keys, precedence descending and
    then the 4-tuple (SourceNS, SourceName, DestinationNS,
    DestinationName) ascending, byte-wise and field by field; two
    intentions are left unordered exactly when they have the same
    precedence and 4-tuple, so the order is total on these keys and not
    on the intentions. Hence two sorted arrangements of the same
    intentions have the same keys at every position, and are the same
    list when no two of the intentions share a key; and for every
    procedure that returns a sorted permutation of its input, sorting
    twice gives the keys of sorting once and, on a list without a
    repeated key, the same list, an already sorted list being returned
    as it is. *)
Theorem less_strict_weak_order :
  (∀ (s : IntentionPrecedenceSorter) i j a b,
     s !! i = Some a → s !! j = Some b → Less s i j = Some (less a b))
  ∧ (∀ a : Intention, less a a = false)
  ∧ (∀ a b c : Intention, less a b = true → less b c = true → less a c = true)
  ∧ (∀ a b : Intention, less a b = true ↔ precedes (sort_key a) (sort_key b))
  ∧ (∀ a b : Intention,
       less a b = false ∧ less b a = false ↔ sort_key a = sort_key b)
  ∧ (∀ l1 l2 : list Intention,
       sorted l1 → sorted l2 → l1 ≡ₚ l2 →
       sort_key <$> l1 = sort_key <$> l2
       ∧ (NoDup (sort_key <$> l1) → l1 = l2))
  ∧ (∀ sort : list Intention → list Intention,
       (∀ l, sorted (sort l) ∧ sort l ≡ₚ l) →
       ∀ l, sort_key <$> sort (sort l) = sort_key <$> sort l
            ∧ (NoDup (sort_key <$> l) →
               sort (sort l) = sort l ∧ (sorted l → sort l = l))).
Proof.
  split_and!.
  - intros s i j a b Hi Hj. unfold Less. by rewrite Hi, Hj.
  - apply less_irrefl.
  - apply less_trans.
  - apply less_precedes.
  - apply less_unordered.
  - intros l1 l2 H1 H2 Hp. split; [by apply sorted_keys_unique|].
    intros Hnd. by apply sorted_unique.
  - intros sort Hsort l.
    destruct (Hsort l) as [Hs Hp], (Hsort (sort l)) as [Hs' Hp'].
    split; [by apply sorted_keys_unique|].
    intros Hnd.
    assert (Hnd' : NoDup (sort_key <$> sort l)).
    { by rewrite (fmap_Permutation sort_key _ _ Hp). }
    split.
    + symmetry. by apply sorted_unique.
    + intros Hl. symmetry. by apply sorted_unique.
Qed.

Lemma less_strict_weak_order_witness :
  merge_sort in_order (merge_sort in_order three_rules)
  = merge_sort in_order three_rules.
Proof.
  destruct less_strict_weak_order as (_ & _ & _ & _ & _ & _ & Hsort).
  assert (Hcontract : ∀ l : list Intention,
             sorted (merge_sort in_order l) ∧ merge_sort in_order l ≡ₚ l).
  { intros l. split.
    - apply (Sorted_merge_sort in_order).
    - apply (merge_sort_Permutation in_order). }
  destruct (Hsort (merge_sort in_order) Hcontract three_rules) as [_ Htwice].
  apply Htwice.
  apply (bool_decide_unpack (NoDup (sort_key <$> three_rules))).
  vm_compute. exact I.
Defined.

(** C2 as stated fails: the order is not total on intentions. The allow
    rule and the deny rule on the same services are different
    intentions, neither is less than the other, and both arrangements
    of the two are sorted. *)
Lemma less_not_total :
  allow_web_db ≠ deny_web_db
  ∧ less allow_web_db deny_web_db = false
  ∧ less deny_web_db allow_web_db = false
  ∧ sorted [allow_web_db; deny_web_db]
  ∧ sorted [deny_web_db; allow_web_db]
  ∧ [allow_web_db; deny_web_db] ≠ [deny_web_db; allow_web_db].
Proof.
  split_and!; try done.
  - repeat constructor.
  - repeat constructor.
Qed.

(** ** The content hash *)

Lemma foldl_snoc {A B} (f : A → B) (l : list A) (acc : list B) :
  foldl (λ acc x, acc ++ [f x]) acc l = acc ++ (f <$> l).
Proof.
  revert acc. induction l as [|x l IH]; intros acc; simpl.
  - by rewrite app_nil_r.
  - by rewrite IH, <- app_assoc.
Qed.

Lemma foldl_append {A B} (g : A → list B) (l : list A) (acc : list B) :
  foldl (λ acc x, acc ++ g x) acc l = acc ++ mjoin (g <$> l).
Proof.
  revert acc. induction l as [|x l IH]; intros acc; simpl.
  - by rewrite app_nil_r.
  - by rewrite IH, <- app_assoc.
Qed.

(** [sort.Strings] returns its input in increasing order, and the
    result only depends on which strings the input holds: any other
    sorting procedure returns the same slice. *)
Lemma sort_Strings_sorted (keys : list string) :
  Sorted String.le (sort_Strings keys) ∧ sort_Strings keys ≡ₚ keys.
Proof.
  split; [apply (Sorted_merge_sort String.le) | apply (merge_sort_Permutation String.le)].
Qed.

Lemma sort_Strings_unique (keys sorted_keys : list string) :
  Sorted String.le sorted_keys → sorted_keys ≡ₚ keys →
  sorted_keys = sort_Strings keys.
Proof.
  intros Hs Hp. destruct (sort_Strings_sorted keys) as [Hs' Hp'].
  apply (Sorted_unique String.le); [done..|]. by rewrite Hp, Hp'.
Qed.

Lemma sort_Strings_Permutation (keys1 keys2 : list string) :
  keys1 ≡ₚ keys2 → sort_Strings keys1 = sort_Strings keys2.
Proof.
  intros Hp. destruct (sort_Strings_sorted keys1) as [Hs Hp1].
  apply sort_Strings_unique; [done|]. by rewrite Hp1.
Qed.

Lemma Sorted_le_NoDup_lt (l : list string) :
  StronglySorted String.le l → NoDup l → Sorted string_lt l.
Proof.
  induction 1 as [|k l Hl IH Hk]; [constructor|].
  rewrite NoDup_cons. intros [Hk' Hnd].
  constructor; [by apply IH|].
  destruct l as [|k' l]; constructor.
  apply Forall_cons in Hk as [Hkk' _].
  destruct (string_lt_trichotomy k k') as [H | [-> | H]]; [done| |].
  - destruct Hk'. by left.
  - apply string_lt_not_le in H. by destruct H.
Qed.

Lemma sort_Strings_strict (keys : list string) :
  NoDup keys → Sorted string_lt (sort_Strings keys).
Proof.
  intros Hnd. destruct (sort_Strings_sorted keys) as [Hs Hp].
  apply Sorted_le_NoDup_lt.
  - apply Sorted_StronglySorted; [apply _ | done].
  - by rewrite Hp.
Qed.

(** The bytes written, with the two loops unfolded. *)
Lemma hash_writes_unfold (kvs : list (string * string)) (x : Intention) :
  hash_writes kvs x =
    field_writes x ++
    mjoin ((λ k, bytes k ++ bytes (map_index (Meta x) k)) <$> sort_Strings kvs.*1).
Proof.
  unfold hash_writes, meta_writes.
  by rewrite foldl_snoc, foldl_append.
Qed.

Lemma field_writes_fixed_content {M N} (x : Intention_ M) (y : Intention_ N) :
  fixed_content x = fixed_content y → field_writes x = field_writes y.
Proof.
  unfold fixed_content, field_writes. intros H.
  injection H; intros; congruence.
Qed.

Lemma range_of_keys (m : option MetaMap) (kvs : list (string * string)) :
  range_of m kvs → kvs.*1 ≡ₚ (map_to_list (meta_entries m)).*1.
Proof. unfold range_of. by intros ->. Qed.

(** The bytes written do not depend on the order of the loop over
    [Meta], nor on anything but the content. *)
Lemma hash_writes_content (x y : Intention) (kvs1 kvs2 : list (string * string)) :
  range_of (Meta x) kvs1 → range_of (Meta y) kvs2 → content x = content y →
  hash_writes kvs1 x = hash_writes kvs2 y.
Proof.
  intros H1%range_of_keys H2%range_of_keys Hc.
  assert (Hf : fixed_content x = fixed_content y) by exact (f_equal fst Hc).
  assert (Hm : meta_entries (Meta x) = meta_entries (Meta y))
    by exact (f_equal snd Hc).
  rewrite !hash_writes_unfold, (field_writes_fixed_content x y Hf).
  rewrite (sort_Strings_Permutation kvs1.*1 kvs2.*1).
  2: { by rewrite H1, H2, Hm. }
  f_equal. f_equal. apply list_fmap_ext. intros _ k _.
  unfold map_index. by rewrite Hm.
Qed.

(** C5 as stated fails in its second half: the fields are written one
    after the other with nothing between them, so an ID ["a"] with a
    Description ["b"] writes the same bytes as an ID ["ab"] with an
    empty Description, and the two intentions receive the same digest
    from any hash function. *)
Lemma SetHash_collision :
  content (with_ID "a" "b" allow_web_db) ≠ content (with_ID "ab" "" allow_web_db)
  ∧ range_of (Meta (with_ID "a" "b" allow_web_db)) []
  ∧ range_of (Meta (with_ID "ab" "" allow_web_db)) []
  ∧ hash_writes [] (with_ID "a" "b" allow_web_db)
    = hash_writes [] (with_ID "ab" "" allow_web_db)
  ∧ ∀ blake2b_Sum256,
      Hash (SetHash blake2b_Sum256 [] (with_ID "a" "b" allow_web_db))
      = Hash (SetHash blake2b_Sum256 [] (with_ID "ab" "" allow_web_db)).
Proof.
  assert (Hr : ([] : list (string * string)) ≡ₚ map_to_list (∅ : MetaMap)).
  { by rewrite map_to_list_empty. }
  split_and!; [done | exact Hr | exact Hr | reflexivity |].
  intros blake2b_Sum256. reflexivity.
Qed.

(** C6: two intentions equal in the other hashed fields whose Meta maps
    were filled with the same entries in different orders receive the
    same digest, whatever order the loops over the two maps take: the
    digest of each is the hash of the bytes of the fixed fields
    followed by the bytes of the Meta entries in strictly increasing
    order of their keys, each key followed by its value. *)
Theorem SetHash_Meta_order (blake2b_Sum256 : list byte → list byte)
    (x y : Intention) (l1 l2 kvs1 kvs2 : list (string * string)) :
  NoDup l1.*1 → l1 ≡ₚ l2 →
  Meta x = Some (list_to_map l1) → Meta y = Some (list_to_map l2) →
  fixed_content x = fixed_content y →
  range_of (Meta x) kvs1 → range_of (Meta y) kvs2 →
  let fixed :=
    bytes (ID x) ++ bytes (Description x) ++ bytes (SourceNS x) ++
    bytes (SourceName x) ++ bytes (DestinationNS x) ++
    bytes (DestinationName x) ++ bytes (SourceType x) ++ bytes (Action x) ++
    LittleEndian_uint64 (uint64 (Precedence x)) in
  Hash (SetHash blake2b_Sum256 kvs1 x) = Hash (SetHash blake2b_Sum256 kvs2 y)
  ∧ ∃ entries : list (string * string),
      entries ≡ₚ l1 ∧ Sorted string_lt entries.*1
      ∧ Hash (SetHash blake2b_Sum256 kvs1 x)
        = Some (blake2b_Sum256
                  (fixed ++ mjoin ((λ kv, bytes kv.1 ++ bytes kv.2) <$> entries)))
      ∧ Hash (SetHash blake2b_Sum256 kvs2 y)
        = Some (blake2b_Sum256
                  (fixed ++ mjoin ((λ kv, bytes kv.1 ++ bytes kv.2) <$> entries)))
      ∧ hash_writes kvs1 x
        = fixed ++ mjoin ((λ kv, bytes kv.1 ++ bytes kv.2) <$> entries).
Proof.
  intros Hnd Hp Hx Hy Hf H1 H2 fixed.
  assert (Hm : (list_to_map l1 : MetaMap) = list_to_map l2)
    by by apply list_to_map_proper.
  assert (Hsame : hash_writes kvs1 x = hash_writes kvs2 y).
  { apply hash_writes_content; [done..|].
    unfold content. by rewrite Hf, Hx, Hy, Hm. }
  split.
  { simpl. by rewrite Hsame. }
  pose proof (range_of_keys _ _ H1) as Hk.
  rewrite Hx in Hk; simpl in Hk.
  exists ((λ k, (k, map_index (Meta x) k)) <$> sort_Strings kvs1.*1).
  assert (Hbytes :
    hash_writes kvs1 x
    = fixed ++ mjoin ((λ kv, bytes kv.1 ++ bytes kv.2) <$>
                      ((λ k, (k, map_index (Meta x) k)) <$> sort_Strings kvs1.*1))).
  { rewrite hash_writes_unfold. by rewrite <- list_fmap_compose. }
  split_and!.
  - destruct (sort_Strings_sorted kvs1.*1) as [_ ->]. rewrite Hk.
    rewrite <- (map_to_list_to_map (M := gmap string) l1 Hnd) at 2.
    rewrite <- list_fmap_compose.
    erewrite list_fmap_ext; [by rewrite list_fmap_id|].
    intros _ [k v] Hkv%list_elem_of_lookup_2. simpl.
    apply elem_of_map_to_list in Hkv.
    unfold map_index. by rewrite Hx; simpl; rewrite Hkv.
  - rewrite <- list_fmap_compose.
    erewrite (list_fmap_ext _ id); [rewrite list_fmap_id | done].
    apply sort_Strings_strict. rewrite Hk. apply NoDup_fst_map_to_list.
  - simpl. by rewrite Hbytes.
  - simpl. by rewrite <- Hsame, Hbytes.
  - exact Hbytes.
Qed.

Lemma SetHash_Meta_order_witness :
  Hash (SetHash plain_digest two_tags tagged)
  = Hash (SetHash plain_digest (reverse two_tags)
            (with_Meta (reverse two_tags) tagged))
  ∧ Hash (SetHash plain_digest two_tags tagged)
    = Some (field_writes tagged ++ bytes "envprodteampayments").
Proof.
  assert (Hnd : NoDup two_tags.*1).
  { apply (bool_decide_unpack (NoDup two_tags.*1)). vm_compute. exact I. }
  assert (Hnd' : NoDup (reverse two_tags).*1).
  { apply (bool_decide_unpack (NoDup (reverse two_tags).*1)). vm_compute. exact I. }
  split; [|vm_compute; reflexivity].
  refine (proj1 (SetHash_Meta_order plain_digest tagged
                   (with_Meta (reverse two_tags) tagged)
                   two_tags (reverse two_tags) two_tags (reverse two_tags)
                   Hnd _ eq_refl eq_refl eq_refl _ _)).
  - apply Permutation_swap.
  - unfold range_of. symmetry. by apply map_to_list_to_map.
  - unfold range_of. symmetry. by apply map_to_list_to_map.
Defined.

(** ** Validation *)

Section validation_properties.
Variables metaKeyMaxLength metaMaxKeyPairs metaValueMaxLength : Z.

Let errors := Validate_errors metaKeyMaxLength metaMaxKeyPairs metaValueMaxLength.
Let broken := violates metaKeyMaxLength metaMaxKeyPairs metaValueMaxLength.
Let per_entry := entry_errors metaKeyMaxLength metaValueMaxLength.

Lemma append_if_app (c : bool) (e : ValidationError) (result : list ValidationError) :
  append_if c e result = result ++ (if c then [e] else []).
Proof. destruct c; simpl; [done | by rewrite app_nil_r]. Qed.

Lemma elem_of_if (c : bool) (e e0 : ValidationError) :
  e ∈ (if c then [e0] else []) ↔ c = true ∧ e = e0.
Proof.
  destruct c.
  - rewrite list_elem_of_singleton. tauto.
  - rewrite elem_of_nil. split; [done | by intros [? _]].
Qed.

Lemma check_wildcard_app (f : Field) (x : Intention) (result : list ValidationError) :
  check_wildcard f x result = result ++ check_wildcard f x [].
Proof.
  unfold check_wildcard.
  destruct (negb _); [|by rewrite app_nil_r].
  destruct (namespace_of f); rewrite !append_if_app; simpl;
    by rewrite <- ?app_assoc.
Qed.

Lemma elem_of_check_wildcard (f : Field) (x : Intention) (e : ValidationError) :
  e ∈ check_wildcard f x [] ↔
  (e = PartialWildcard f ∧ broken x e) ∨ (e = ExactAfterWildcard f ∧ broken x e).
Proof.
  unfold check_wildcard, broken.
  destruct (String.eqb_spec (field_of f x) WildcardSpecifier) as [Hw | Hw]; simpl.
  { rewrite elem_of_nil. split; [done|].
    intros [[-> [H _]] | [-> (ns & _ & H & _)]]; done. }
  destruct (namespace_of f) as [ns|] eqn:Hns; rewrite !append_if_app; simpl.
  - rewrite elem_of_app, !elem_of_if. split.
    + intros [[Hc ->] | [Hc ->]]; [by left | right].
      split; [done|]. exists ns. by apply String.eqb_eq in Hc.
    + intros [[-> [_ Hc]] | [-> (ns' & Hns' & _ & Hc)]]; [by left | right].
      split; [|done]. apply String.eqb_eq. congruence.
  - rewrite elem_of_if. split.
    + intros [Hc ->]. by left.
    + intros [[-> [_ Hc]] | [-> (ns' & Hns' & _)]]; [done | congruence].
Qed.

Lemma foldl_entry_errors (kvs : list (string * string)) (result : list ValidationError) :
  foldl (λ result kv,
           let result :=
             append_if (metaKeyMaxLength <? len_string kv.1)
               (MetaKeyTooLong kv.1) result in
           append_if (metaValueMaxLength <? len_string kv.2)
             (MetaValueTooLong kv.1) result)
        result kvs
  = result ++ mjoin (per_entry <$> kvs).
Proof.
  revert result. induction kvs as [|kv kvs IH]; intros result; simpl.
  - by rewrite app_nil_r.
  - rewrite IH. unfold per_entry, entry_errors. rewrite !append_if_app; simpl.
    by rewrite <- !app_assoc.
Qed.

Lemma elem_of_entry_errors (kvs : list (string * string)) (x : Intention)
    (e : ValidationError) :
  range_of (Meta x) kvs →
  e ∈ mjoin (per_entry <$> kvs) ↔
  (∃ k, e = MetaKeyTooLong k ∧ broken x e) ∨
  (∃ k, e = MetaValueTooLong k ∧ broken x e).
Proof.
  intros Hr.
  assert (Hin : ∀ k v, (k, v) ∈ kvs ↔ meta_entries (Meta x) !! k = Some v).
  { intros k v. unfold range_of in Hr. by rewrite Hr, elem_of_map_to_list. }
  rewrite list_elem_of_join. unfold broken. split.
  - intros (errs & He & (kv & -> & Hkv)%list_elem_of_fmap).
    destruct kv as [k v]. apply Hin in Hkv.
    unfold per_entry, entry_errors in He. rewrite !append_if_app in He; simpl in He.
    rewrite elem_of_app, !elem_of_if in He.
    destruct He as [[Hc ->] | [Hc ->]]; [left | right]; exists k; (split; [done|]).
    + split; [by eexists | apply Z.ltb_lt in Hc; lia].
    + exists v. split; [done | apply Z.ltb_lt in Hc; lia].
  - intros [(k & -> & [v Hv] & Hlen) | (k & -> & v & Hv & Hlen)].
    + exists (per_entry (k, v)). split.
      * unfold per_entry, entry_errors. rewrite !append_if_app; simpl.
        rewrite elem_of_app, !elem_of_if. left. split; [|done].
        apply Z.ltb_lt. lia.
      * apply list_elem_of_fmap. exists (k, v). split; [done | by apply Hin].
    + exists (per_entry (k, v)). split.
      * unfold per_entry, entry_errors. rewrite !append_if_app; simpl.
        rewrite elem_of_app, !elem_of_if. right. split; [|done].
        apply Z.ltb_lt. lia.
      * apply list_elem_of_fmap. exists (k, v). split; [done | by apply Hin].
Qed.

(** The errors as one concatenation, in the order of the appends. *)
Lemma Validate_errors_unfold (kvs : list (string * string)) (x : Intention) :
  errors kvs x =
    (if String.eqb (SourceNS x) "" then [MustBeSet FSourceNS] else []) ++
    (if String.eqb (SourceName x) "" then [MustBeSet FSourceName] else []) ++
    (if String.eqb (DestinationNS x) "" then [MustBeSet FDestinationNS] else []) ++
    (if String.eqb (DestinationName x) "" then [MustBeSet FDestinationName] else []) ++
    check_wildcard FSourceNS x [] ++
    check_wildcard FSourceName x [] ++
    check_wildcard FDestinationNS x [] ++
    check_wildcard FDestinationName x [] ++
    (if metaValueMaxLength <? len_string (Description x)
     then [DescriptionTooLong] else []) ++
    (if metaMaxKeyPairs <? len_map (Meta x) then [MetaTooManyPairs] else []) ++
    mjoin (per_entry <$> kvs) ++
    (if negb (String.eqb (Action x) IntentionActionAllow
              || String.eqb (Action x) IntentionActionDeny)
     then [ActionInvalid] else []) ++
    (if negb (String.eqb (SourceType x) IntentionSourceConsul)
     then [SourceTypeInvalid] else []).
Proof.
  unfold errors, Validate_errors.
  rewrite !append_if_app, foldl_entry_errors.
  rewrite (check_wildcard_app FDestinationName), (check_wildcard_app FDestinationNS),
    (check_wildcard_app FSourceName), (check_wildcard_app FSourceNS).
  simpl. by rewrite <- !app_assoc.
Qed.

(** An error is reported exactly when its rule is violated. *)
Lemma elem_of_Validate_errors (kvs : list (string * string)) (x : Intention)
    (e : ValidationError) :
  range_of (Meta x) kvs → e ∈ errors kvs x ↔ broken x e.
Proof.
  intros Hr. rewrite Validate_errors_unfold.
  rewrite !elem_of_app, !elem_of_if, !elem_of_check_wildcard,
    (elem_of_entry_errors kvs x e Hr).
  rewrite !String.eqb_eq, !negb_true_iff, !orb_false_iff, !String.eqb_neq,
    !Z.ltb_lt.
  split.
  - intros H. unfold broken in *.
    repeat (destruct H as [H | H]);
      try (destruct H as [H He]; subst e; simpl; try done; lia);
      try (destruct H as (k & He & H); done).
  - intros H. destruct e as [f|f|f| | |k|k| |].
    + destruct f; [left | right; left | do 2 right; left | do 3 right; left];
        by split.
    + destruct f;
        [do 4 right; left | do 5 right; left | do 6 right; left | do 7 right; left];
        left; by split.
    + destruct f;
        [do 4 right; left | do 5 right; left | do 6 right; left | do 7 right; left];
        right; by split.
    + do 8 right. left. split; [|done]. unfold broken in H; simpl in H. lia.
    + do 9 right. left. split; [|done]. unfold broken in H; simpl in H. lia.
    + do 10 right. left. left. by exists k.
    + do 10 right. left. right. by exists k.
    + do 11 right. left. split; [|done]. exact H.
    + do 12 right. split; [|done]. exact H.
Qed.
(** C7: [Validate] accumulates an error for every rule the intention
    violates and for no other: an error is in the returned list exactly
    when its rule is violated, each rule being judged on its own; the
    result is nil exactly when no rule is violated, and is otherwise
    the whole list; so an intention with an empty SourceName and an
    Action that is neither allow nor deny gets both errors in one
    pass. *)
Theorem Validate_reports_all (kvs : list (string * string)) (x : Intention) :
  range_of (Meta x) kvs →
  (∀ e, e ∈ Validate_errors metaKeyMaxLength metaMaxKeyPairs
              metaValueMaxLength kvs x
        ↔ violates metaKeyMaxLength metaMaxKeyPairs metaValueMaxLength x e)
  ∧ (Validate metaKeyMaxLength metaMaxKeyPairs metaValueMaxLength kvs x = None
     ↔ ∀ e, ¬ violates metaKeyMaxLength metaMaxKeyPairs metaValueMaxLength x e)
  ∧ (∀ errs,
       Validate metaKeyMaxLength metaMaxKeyPairs metaValueMaxLength kvs x
       = Some errs
       ↔ errs = Validate_errors metaKeyMaxLength metaMaxKeyPairs
                  metaValueMaxLength kvs x
         ∧ ∃ e, violates metaKeyMaxLength metaMaxKeyPairs
                  metaValueMaxLength x e)
  ∧ (SourceName x = "" →
     Action x ≠ IntentionActionAllow → Action x ≠ IntentionActionDeny →
     ∃ errs,
       Validate metaKeyMaxLength metaMaxKeyPairs metaValueMaxLength kvs x
       = Some errs
       ∧ MustBeSet FSourceName ∈ errs ∧ ActionInvalid ∈ errs).
Proof.
  intros Hr.
  pose proof (λ e, elem_of_Validate_errors kvs x e Hr) as Hin.
  fold errors broken. unfold errors, broken in Hin.
  assert (Hnone : Validate metaKeyMaxLength metaMaxKeyPairs metaValueMaxLength kvs x = None
            ↔ ∀ e, ¬ violates metaKeyMaxLength metaMaxKeyPairs metaValueMaxLength x e).
  { unfold Validate.
    destruct (Validate_errors _ _ _ kvs x) as [|e0 errs] eqn:He.
    - split; [|done]. intros _ e Hv. apply Hin in Hv. by apply elem_of_nil in Hv.
    - split; [done|]. intros Hno. destruct (Hno e0). apply Hin. by left. }
  assert (Hsome : ∀ errs,
            Validate metaKeyMaxLength metaMaxKeyPairs metaValueMaxLength kvs x
            = Some errs
            ↔ errs = Validate_errors metaKeyMaxLength metaMaxKeyPairs
                       metaValueMaxLength kvs x
              ∧ ∃ e, violates metaKeyMaxLength metaMaxKeyPairs
                       metaValueMaxLength x e).
  { intros errs. unfold Validate.
    destruct (Validate_errors _ _ _ kvs x) as [|e0 errs0] eqn:He.
    - split; [done|]. intros [_ [e Hv]]. apply Hin in Hv. by apply elem_of_nil in Hv.
    - split.
      + intros [= <-]. split; [done|]. exists e0. apply Hin. by left.
      + by intros [-> _]. }
  split_and!; [done..|].
  intros Hsrc Hallow Hdeny.
  exists (Validate_errors metaKeyMaxLength metaMaxKeyPairs metaValueMaxLength kvs x).
  split_and!.
  - apply Hsome. split; [done|]. by exists (MustBeSet FSourceName).
  - by apply Hin.
  - by apply Hin.
Qed.
End validation_properties.

Lemma Validate_reports_all_witness :
  Validate 128 64 512 [] nobody_to_db = Some [MustBeSet FSourceName; ActionInvalid]
  ∧ Validate 128 64 512 [] web_to_db = None.
Proof.
  assert (Hr : ([] : list (string * string)) ≡ₚ map_to_list (∅ : MetaMap)).
  { by rewrite map_to_list_empty. }
  destruct (Validate_reports_all 128 64 512 [] nobody_to_db Hr)
    as (_ & _ & Hsome & _).
  split; [|reflexivity].
  apply Hsome. split; [reflexivity|].
  exists ActionInvalid. simpl. by split.
Defined.

(** ** JSON decoding *)

Lemma bytes_nil (s : string) : bytes s = [] → s = "".
Proof. by destruct s. Qed.

Section json_properties.
Context {Error : Type}.
Variable lib_UnmarshalJSON : list byte → Aux → option Error * Aux.

(** [UnmarshalJSON] fails exactly when the decoder does. *)
Lemma UnmarshalJSON_error (data : list byte) (t : Intention) :
  (UnmarshalJSON lib_UnmarshalJSON data t).1
  = (lib_UnmarshalJSON data (mkAux "" "" "" t)).1.
Proof.
  unfold UnmarshalJSON.
  by destruct (lib_UnmarshalJSON data _) as [[err|] aux].
Qed.

(** Without a hash string in the data, the receiver keeps the [Hash] it
    had. *)
Lemma UnmarshalJSON_keeps_Hash (data : list byte) (t : Intention) :
  shadows_Hash lib_UnmarshalJSON →
  (lib_UnmarshalJSON data (mkAux "" "" "" t)).1 = None →
  aux_Hash (lib_UnmarshalJSON data (mkAux "" "" "" t)).2 = "" →
  Hash (UnmarshalJSON lib_UnmarshalJSON data t).2 = Hash t.
Proof.
  intros Hshadow Hok Hempty.
  pose proof (Hshadow data (mkAux "" "" "" t)) as Hh. simpl in Hh.
  unfold UnmarshalJSON.
  destruct (lib_UnmarshalJSON data _) as [err aux]; simpl in *.
  subst err. by rewrite Hempty.
Qed.

(** C8: when the decoder accepts the data and finds an empty hash
    string, or none, [UnmarshalJSON] returns no error and assigns no
    [Hash]: the receiver keeps the one it had, so that decoding into an
    intention without a hash, such as a fresh one, yields a nil [Hash];
    and whatever the hash string is, a successful [UnmarshalJSON] never
    turns a nil [Hash] into a zero-length byte string. *)
Theorem UnmarshalJSON_empty_Hash (data : list byte) (t : Intention) :
  shadows_Hash lib_UnmarshalJSON →
  (lib_UnmarshalJSON data (mkAux "" "" "" t)).1 = None →
  Hash t = None →
  (aux_Hash (lib_UnmarshalJSON data (mkAux "" "" "" t)).2 = "" →
     UnmarshalJSON lib_UnmarshalJSON data t
     = (None, aux_Alias (lib_UnmarshalJSON data (mkAux "" "" "" t)).2)
     ∧ Hash (UnmarshalJSON lib_UnmarshalJSON data t).2 = None)
  ∧ (UnmarshalJSON lib_UnmarshalJSON data t).1 = None
  ∧ Hash (UnmarshalJSON lib_UnmarshalJSON data t).2 ≠ Some [].
Proof.
  intros Hshadow Hok Hnil.
  pose proof (Hshadow data (mkAux "" "" "" t)) as Hh. simpl in Hh.
  unfold UnmarshalJSON.
  destruct (lib_UnmarshalJSON data _) as [err aux]; simpl in *. subst err.
  rewrite Hnil in Hh.
  split_and!; [|done|].
  - intros ->. simpl. by split.
  - destruct (String.eqb_spec (aux_Hash aux) "") as [He | He]; simpl.
    + by rewrite Hh.
    + intros [= Hb]. by apply bytes_nil in Hb.
Qed.
End json_properties.

Lemma UnmarshalJSON_empty_Hash_witness :
  UnmarshalJSON raw_decoder [] zero_Intention = (None, zero_Intention)
  ∧ Hash (UnmarshalJSON raw_decoder [] zero_Intention).2 = None.
Proof.
  assert (Hshadow : shadows_Hash raw_decoder) by (intros data aux; reflexivity).
  exact (proj1 (UnmarshalJSON_empty_Hash raw_decoder [] zero_Intention
                  Hshadow eq_refl eq_refl) eq_refl).
Defined.

(** ** Cloning *)

(** Storing the entries of a map one by one into an empty map, in any
    order, rebuilds the map. *)
Lemma foldl_insert_lookup (kvs : list (string * string)) (m0 : MetaMap) (k : string) :
  foldl (λ m kv, <[kv.1 := kv.2]> m) m0 kvs !! k
  = match list_to_map (M := MetaMap) (reverse kvs) !! k with
    | Some v => Some v
    | None => m0 !! k
    end.
Proof.
  revert m0. induction kvs as [|[k' v'] kvs IH]; intros m0; simpl.
  - by rewrite lookup_empty.
  - rewrite IH, reverse_cons, list_to_map_app. simpl.
    rewrite lookup_union.
    destruct (list_to_map (reverse kvs) !! k) as [v|] eqn:Hk; simpl.
    + by destruct (<[k':=v']> (∅ : MetaMap) !! k).
    + destruct (decide (k' = k)) as [-> | Hne].
      * by rewrite !lookup_insert_eq.
      * rewrite !lookup_insert_ne by done. by rewrite lookup_empty.
Qed.

Lemma copy_entries (kvs : list (string * string)) (m : MetaMap) :
  kvs ≡ₚ map_to_list m → foldl (λ m2 kv, <[kv.1 := kv.2]> m2) ∅ kvs = m.
Proof.
  intros Hp. apply map_eq. intros k.
  rewrite foldl_insert_lookup, lookup_empty.
  assert (Hm : list_to_map (M := MetaMap) (reverse kvs) = m).
  { rewrite <- (list_to_map_to_list m). apply list_to_map_proper.
    - rewrite reverse_Permutation, Hp. apply NoDup_fst_map_to_list.
    - by rewrite reverse_Permutation. }
  rewrite Hm. by destruct (m !! k).
Qed.

(** The loop of [Clone] fills the map at [l2] and touches nothing
    else. *)
Lemma foldl_map_store (kvs : list (string * string)) (l2 : loc) (σ : heap)
    (m0 : MetaMap) :
  maps σ !! l2 = Some m0 →
  foldl (λ σ kv, map_store l2 kv.1 kv.2 σ) σ kvs
  = mkHeap (structs σ)
      (<[l2 := foldl (λ m kv, <[kv.1 := kv.2]> m) m0 kvs]> (maps σ)).
Proof.
  revert σ m0. induction kvs as [|kv kvs IH]; intros [ss ms] m0 Hl2; simpl in *.
  - by rewrite insert_id.
  - erewrite IH; simpl.
    2: { rewrite lookup_alter_eq, Hl2. reflexivity. }
    f_equal. apply map_eq. intros l.
    destruct (decide (l2 = l)) as [-> | Hne].
    + by rewrite !lookup_insert_eq.
    + rewrite !lookup_insert_ne by done. by rewrite lookup_alter_ne.
Qed.

Lemma set_Meta_set_Hash {M N} (m : N) (x : Intention_ M) :
  set_Meta m (set_Hash None x) = set_Hash None (set_Meta m x).
Proof. reflexivity. Qed.

(** C9: [Clone] returns the address of a struct that did not exist
    before; every struct and every map of the heap is as it was; the
    clone holds the content of the original, Meta entries included,
    with a nil [Hash]; its [Meta] is nil exactly when the original's
    is, and otherwise is a map that did not exist before, so that no
    mutation of the clone's map is seen through the original and no
    mutation of the original's map is seen through the clone. *)
Theorem Clone_deep_copy (kvs : list (string * string)) (σ : heap) (t : loc)
    (x : IntentionRef) :
  structs σ !! t = Some x →
  Meta_allocated σ t →
  range_of_Meta σ t kvs →
  ∃ (p : loc) (σ' : heap) (x' : IntentionRef) (v : Intention),
    Clone kvs σ t = Some (p, σ')
    ∧ structs σ !! p = None
    ∧ structs σ' !! p = Some x'
    ∧ (∀ q, q ≠ p → structs σ' !! q = structs σ !! q)
    ∧ (∀ l, is_Some (maps σ !! l) → maps σ' !! l = maps σ !! l)
    ∧ load σ t = Some v
    ∧ load σ' t = Some v
    ∧ load σ' p = Some (set_Hash None v)
    ∧ Hash x' = None
    ∧ (Meta x = None ↔ Meta x' = None)
    ∧ (∀ l l', Meta x = Some l → Meta x' = Some l' →
         maps σ !! l' = None
         ∧ maps σ' !! l' = maps σ !! l
         ∧ ∀ f : MetaMap → MetaMap,
             load (map_update l' f σ') t = Some v
             ∧ load (map_update l f σ') p = Some (set_Hash None v)).
Proof.
  intros Hx Halloc Hrange.
  unfold Clone. rewrite Hx. simpl.
  destruct (Meta x) as [l|] eqn:HM.
  - destruct (Halloc x l Hx HM) as [m Hm]. rewrite Hm. simpl.
    pose proof (Hrange x l m Hx HM Hm) as Hkvs.
    set (l2 := fresh (dom (maps σ))).
    assert (Hl2 : maps σ !! l2 = None).
    { apply not_elem_of_dom. apply is_fresh. }
    assert (Hne : l2 ≠ l) by congruence.
    rewrite (foldl_map_store kvs l2 _ ∅) by (simpl; apply lookup_insert_eq).
    simpl. rewrite (copy_entries kvs m Hkvs), insert_insert_eq.
    set (p := fresh (dom (structs σ))).
    assert (Hp : structs σ !! p = None).
    { apply not_elem_of_dom. apply is_fresh. }
    assert (Hpt : t ≠ p) by congruence.
    eexists p, _, (set_Hash None (set_Meta (Some l2) x)), (set_Meta (Some m) x).
    split_and!; try done; simpl.
    + apply lookup_insert_eq.
    + intros q Hq. by rewrite lookup_insert_ne.
    + intros l0 [m0 Hl0]. rewrite lookup_insert_ne; [done | congruence].
    + unfold load. rewrite Hx; simpl. unfold resolve. by rewrite HM, Hm.
    + unfold load; simpl. rewrite lookup_insert_ne, Hx by done; simpl.
      unfold resolve; simpl. rewrite HM, lookup_insert_ne, Hm by done. done.
    + unfold load; simpl. rewrite lookup_insert_eq; simpl.
      unfold resolve; simpl. by rewrite lookup_insert_eq.
    + intros l0 l' [= <-] [= <-]. split_and!; [done | | ].
      * rewrite lookup_insert_eq. done.
      * intros f. split.
        -- unfold load; simpl. rewrite lookup_insert_ne, Hx by done; simpl.
           unfold resolve; simpl.
           rewrite HM, lookup_alter_ne, lookup_insert_ne, Hm by done. done.
        -- unfold load; simpl. rewrite lookup_insert_eq; simpl.
           unfold resolve; simpl.
           rewrite lookup_alter_ne, lookup_insert_eq by done. done.
  - set (p := fresh (dom (structs σ))).
    assert (Hp : structs σ !! p = None).
    { apply not_elem_of_dom. apply is_fresh. }
    assert (Hpt : t ≠ p) by congruence.
    eexists p, _, (set_Hash None x), (set_Meta None x).
    split_and!; try done; simpl.
    + apply lookup_insert_eq.
    + intros q Hq. by rewrite lookup_insert_ne.
    + unfold load. rewrite Hx; simpl. unfold resolve. by rewrite HM.
    + unfold load; simpl. rewrite lookup_insert_ne, Hx by done; simpl.
      unfold resolve. by rewrite HM.
    + unfold load; simpl. rewrite lookup_insert_eq; simpl.
      unfold resolve; simpl. by rewrite HM.
Qed.

Lemma Clone_deep_copy_witness :
  ∃ (p : loc) (σ' : heap),
    Clone [("team", "payments")] sample_heap 1%positive = Some (p, σ')
    ∧ p ≠ 1%positive
    ∧ load σ' 1%positive = load sample_heap 1%positive
    ∧ load σ' p = set_Hash None <$> load sample_heap 1%positive.
Proof.
  assert (Hx : structs sample_heap !! 1%positive
               = Some (set_Meta (Some 1%positive) web_to_db)) by reflexivity.
  assert (Halloc : Meta_allocated sample_heap 1%positive).
  { intros x l Hx' HM.
    assert (E : Some x = Some (set_Meta (Some 1%positive) web_to_db))
      by exact (eq_trans (eq_sym Hx') Hx).
    injection E as ->. injection HM as <-. by eexists. }
  assert (Hrange : range_of_Meta sample_heap 1%positive [("team", "payments")]).
  { intros x l m Hx' HM Hm.
    assert (E : Some x = Some (set_Meta (Some 1%positive) web_to_db))
      by exact (eq_trans (eq_sym Hx') Hx).
    injection E as ->. injection HM as <-. injection Hm as <-.
    change ([("team", "payments")]
            ≡ₚ map_to_list ({[ "team" := "payments" ]} : MetaMap)).
    by rewrite map_to_list_singleton. }
  destruct (Clone_deep_copy [("team", "payments")] sample_heap 1%positive _
              Hx Halloc Hrange)
    as (p & σ' & x' & v & HClone & Hnew & _ & _ & _ & Hv & Hv' & Hp & _).
  exists p, σ'. split_and!.
  - exact HClone.
  - intros ->. discriminate (eq_trans (eq_sym Hx) Hnew).
  - by rewrite Hv, Hv'.
  - by rewrite Hv, Hp.
Defined.

(** * Further properties *)

(** ** Reading through the gate *)

(** [CanRead] with an authorizer: the source name is asked about under
    the context filled for the source, then the destination name under
    the context filled for the destination on top of it; either answer
    [acl.Allow] grants the read, an empty name is not asked about, so
    an intention with neither name is refused, and so is every
    intention when the authorizer allows no read. *)
Theorem CanRead_either_side {AuthorizerContext : Type}
    (zero_AuthorizerContext : AuthorizerContext)
    (FillAuthzContext : Intention → AuthorizerContext → bool → AuthorizerContext)
    (ixn : Intention) (authz : Authorizer AuthorizerContext) :
  let src_ctx := FillAuthzContext ixn zero_AuthorizerContext false in
  let dst_ctx :=
    FillAuthzContext ixn
      (if String.eqb (SourceName ixn) "" then zero_AuthorizerContext else src_ctx)
      true in
  (CanRead zero_AuthorizerContext FillAuthzContext ixn (Some authz) = true ↔
     (SourceName ixn ≠ "" ∧ IntentionRead authz (SourceName ixn) src_ctx = acl_Allow)
     ∨ (DestinationName ixn ≠ ""
        ∧ IntentionRead authz (DestinationName ixn) dst_ctx = acl_Allow))
  ∧ (SourceName ixn = "" → DestinationName ixn = "" →
     CanRead zero_AuthorizerContext FillAuthzContext ixn (Some authz) = false)
  ∧ ((∀ name ctx, IntentionRead authz name ctx ≠ acl_Allow) →
     CanRead zero_AuthorizerContext FillAuthzContext ixn (Some authz) = false).
Proof.
  intros src_ctx dst_ctx.
  assert (Hiff :
    CanRead zero_AuthorizerContext FillAuthzContext ixn (Some authz) = true ↔
      (SourceName ixn ≠ "" ∧ IntentionRead authz (SourceName ixn) src_ctx = acl_Allow)
      ∨ (DestinationName ixn ≠ ""
         ∧ IntentionRead authz (DestinationName ixn) dst_ctx = acl_Allow)).
  { unfold CanRead, dst_ctx, src_ctx.
    destruct (String.eqb_spec (SourceName ixn) "") as [Hs | Hs]; simpl.
    - destruct (String.eqb_spec (DestinationName ixn) "") as [Hd | Hd]; simpl.
      + split; [done | intros [[? _] | [? _]]; done].
      + rewrite bool_decide_eq_true. split; [by right | intros [[? _] | [_ ?]]; done].
    - destruct (bool_decide_reflect
                  (IntentionRead authz (SourceName ixn)
                     (FillAuthzContext ixn zero_AuthorizerContext false) = acl_Allow))
        as [Hr | Hr]; simpl.
      + split; [by left | done].
      + destruct (String.eqb_spec (DestinationName ixn) "") as [Hd | Hd]; simpl.
        * split; [done | intros [[_ ?] | [? _]]; done].
        * rewrite bool_decide_eq_true.
          split; [by right | intros [[_ ?] | [_ ?]]; done]. }
  split; [exact Hiff|]. split.
  - intros Hs Hd. apply not_true_is_false. rewrite Hiff.
    intros [[? _] | [? _]]; done.
  - intros Hdeny. apply not_true_is_false. rewrite Hiff.
    intros [[_ H] | [_ H]]; by apply Hdeny in H.
Qed.

Lemma CanRead_either_side_witness :
  CanRead () (λ _ c _, c) web_to_db (Some deny_all) = false
  ∧ CanRead () (λ _ c _, c) web_to_nothing (Some allow_all) = true.
Proof.
  destruct (CanRead_either_side () (λ _ c _, c) web_to_db deny_all)
    as (_ & _ & Hdeny).
  split; [|reflexivity].
  apply Hdeny. intros name ctx. discriminate.
Defined.

(** ** Exact lookups *)

(** [IntentionQueryExact.Validate] returns nil exactly when the four
    parameters are all given, and otherwise the errors of the missing
    ones and no other, each once, in the order SourceNS, SourceName,
    DestinationNS, DestinationName. *)
Theorem IntentionQueryExact_Validate_missing (q : IntentionQueryExact.t) :
  (IntentionQueryExact.Validate q = None ↔
     ∀ f, IntentionQueryExact.field f q ≠ "")
  ∧ ∀ errs, IntentionQueryExact.Validate q = Some errs →
      errs = IntentionQueryExact.IsMissing <$>
               filter (λ f, IntentionQueryExact.field f q = "")
                 [FSourceNS; FSourceName; FDestinationNS; FDestinationName]
      ∧ (∀ f, IntentionQueryExact.IsMissing f ∈ errs
              ↔ IntentionQueryExact.field f q = "")
      ∧ NoDup errs.
Proof.
  assert (Hlist : ∀ errs, IntentionQueryExact.Validate q = Some errs →
            errs = IntentionQueryExact.IsMissing <$>
                     filter (λ f, IntentionQueryExact.field f q = "")
                       [FSourceNS; FSourceName; FDestinationNS; FDestinationName]).
  { intros errs. unfold IntentionQueryExact.Validate.
    rewrite !filter_cons, filter_nil. simpl.
    destruct (String.eqb_spec (IntentionQueryExact.SourceNS q) "");
      destruct (String.eqb_spec (IntentionQueryExact.SourceName q) "");
      destruct (String.eqb_spec (IntentionQueryExact.DestinationNS q) "");
      destruct (String.eqb_spec (IntentionQueryExact.DestinationName q) "");
      repeat case_decide; try done; simpl; intros [= <-]; done. }
  split.
  - unfold IntentionQueryExact.Validate. split.
    + destruct (String.eqb_spec (IntentionQueryExact.SourceNS q) "");
        destruct (String.eqb_spec (IntentionQueryExact.SourceName q) "");
        destruct (String.eqb_spec (IntentionQueryExact.DestinationNS q) "");
        destruct (String.eqb_spec (IntentionQueryExact.DestinationName q) "");
        simpl; try done.
      intros _ []; done.
    + intros Hall.
      pose proof (Hall FSourceNS) as H1. pose proof (Hall FSourceName) as H2.
      pose proof (Hall FDestinationNS) as H3.
      pose proof (Hall FDestinationName) as H4. simpl in H1, H2, H3, H4.
      apply String.eqb_neq in H1, H2, H3, H4. by rewrite H1, H2, H3, H4.
  - intros errs Herrs. rewrite (Hlist errs Herrs). split_and!; [done| |].
    + intros f. rewrite list_elem_of_fmap. split.
      * intros (f' & [= ->] & Hf%list_elem_of_filter). tauto.
      * intros Hf. exists f. split; [done|].
        apply list_elem_of_filter. split; [done|].
        destruct f; set_solver.
    + apply NoDup_fmap_2; [by intros ?? [= ->]|].
      apply NoDup_filter. apply (bool_decide_unpack _). vm_compute. exact I.
Qed.

(** ** The sorter's [Swap] *)

(** [Swap] panics exactly when an index is out of range; otherwise the
    slice it leaves is a permutation of the same length in which the two
    elements have changed places and every other one stayed, a second
    [Swap] restores the slice, and [Less] on the swapped slice is [Less]
    with the indices exchanged. *)
Theorem Swap_exchanges (s : IntentionPrecedenceSorter) (i j : nat) :
  (is_Some (Swap s i j) ↔ (i < length s ∧ j < length s)%nat)
  ∧ ∀ s', Swap s i j = Some s' →
      s' ≡ₚ s ∧ Len s' = Len s
      ∧ s' !! i = s !! j ∧ s' !! j = s !! i
      ∧ (∀ k, k ≠ i → k ≠ j → s' !! k = s !! k)
      ∧ Swap s' i j = Some s
      ∧ Less s' i j = Less s j i.
Proof.
  split.
  - unfold Swap. rewrite <- !lookup_lt_is_Some.
    destruct (s !! i) as [a|], (s !! j) as [b|]; simpl;
      split; try (intros [? ?]); try (intros [[? ?] [? ?]]); try done;
      by eauto.
  - intros s'. unfold Swap.
    destruct (s !! i) as [a|] eqn:Hi; [|done].
    destruct (s !! j) as [b|] eqn:Hj; [|done]. simpl. intros [= <-].
    pose proof (lookup_lt_Some _ _ _ Hi) as Hli.
    pose proof (lookup_lt_Some _ _ _ Hj) as Hlj.
    assert (Hi' : <[i:=b]> (<[j:=a]> s) !! i = Some b).
    { apply list_lookup_insert_eq. by rewrite length_insert. }
    assert (Hj' : <[i:=b]> (<[j:=a]> s) !! j = Some a).
    { destruct (decide (i = j)) as [-> | Hne].
      - rewrite Hi'. congruence.
      - rewrite list_lookup_insert_ne by done. by apply list_lookup_insert_eq. }
    assert (Hk : ∀ k, k ≠ i → k ≠ j → <[i:=b]> (<[j:=a]> s) !! k = s !! k).
    { intros k Hki Hkj. by rewrite !list_lookup_insert_ne by done. }
    split_and!.
    + by apply Permutation_insert_swap.
    + unfold Len. by rewrite !length_insert.
    + done.
    + done.
    + done.
    + rewrite Hi', Hj'. simpl. f_equal. apply list_eq. intros k.
      destruct (decide (k = i)) as [-> | Hki].
      { rewrite list_lookup_insert_eq; [done|]. by rewrite !length_insert. }
      rewrite list_lookup_insert_ne by done.
      destruct (decide (k = j)) as [-> | Hkj].
      { rewrite list_lookup_insert_eq; [done|]. by rewrite !length_insert. }
      rewrite list_lookup_insert_ne by done. by apply Hk.
    + unfold Less. by rewrite Hi', Hj', Hi, Hj.
Qed.

(** ** Recomputing the precedence *)

(** [UpdatePrecedence] ignores the precedence it finds, writes no field
    but [Precedence], and is idempotent. *)
Theorem UpdatePrecedence_idempotent {M : Type} (x : Intention_ M) :
  UpdatePrecedence (UpdatePrecedence x) = UpdatePrecedence x
  ∧ (∀ p, UpdatePrecedence (set_Precedence p x) = UpdatePrecedence x)
  ∧ set_Precedence (Precedence x) (UpdatePrecedence x) = x.
Proof.
  assert (Hstale : ∀ p, UpdatePrecedence (set_Precedence p x) = UpdatePrecedence x).
  { intros p. unfold UpdatePrecedence. simpl. by destruct (precedence_max _). }
  split_and!.
  - rewrite (UpdatePrecedence_frame x) at 1. apply Hstale.
  - exact Hstale.
  - rewrite UpdatePrecedence_frame. by destruct x.
Qed.

(** After [UpdatePrecedence], the comparator puts the intention with the
    more exact destination first whatever the sources are, and between
    equally exact destinations the one with the more exact source,
    before any name is compared. *)
Theorem less_more_exact_first (a b : Intention) :
  let d x := countExact (DestinationNS x) (DestinationName x) in
  let s x := countExact (SourceNS x) (SourceName x) in
  d b < d a ∨ (d a = d b ∧ s b < s a) →
  less (UpdatePrecedence a) (UpdatePrecedence b) = true
  ∧ less (UpdatePrecedence b) (UpdatePrecedence a) = false.
Proof.
  intros d s Hab.
  pose proof (UpdatePrecedence_counts a) as Ha.
  pose proof (UpdatePrecedence_counts b) as Hb.
  pose proof (countExact_cases (SourceNS a) (SourceName a)) as Hsa.
  pose proof (countExact_cases (SourceNS b) (SourceName b)) as Hsb.
  fold (d a) (s a) in Ha. fold (d b) (s b) in Hb.
  fold (s a) in Hsa. fold (s b) in Hsb.
  assert (Hlt : Precedence (UpdatePrecedence b) < Precedence (UpdatePrecedence a))
    by lia.
  unfold less.
  rewrite (proj2 (Z.eqb_neq _ _)) by lia.
  rewrite (proj2 (Z.eqb_neq (Precedence (UpdatePrecedence b)) _)) by lia.
  simpl. split; [by apply Z.ltb_lt | apply Z.ltb_ge; lia].
Qed.

Lemma less_more_exact_first_witness :
  less (UpdatePrecedence partial_wildcard) (UpdatePrecedence any_to_everything) = true
  ∧ less (UpdatePrecedence any_to_everything) (UpdatePrecedence partial_wildcard)
    = false.
Proof.
  apply (less_more_exact_first partial_wildcard any_to_everything).
  left. vm_compute. reflexivity.
Defined.

(** ** What validation accepts *)

Lemma Validate_None (kl kp vl : Z) (kvs : list (string * string)) (x : Intention) :
  Validate kl kp vl kvs x = None ↔ Validate_errors kl kp vl kvs x = [].
Proof. unfold Validate. by destruct (Validate_errors kl kp vl kvs x). Qed.

Lemma Validate_None_violates (kl kp vl : Z) (kvs : list (string * string))
    (x : Intention) :
  range_of (Meta x) kvs →
  Validate kl kp vl kvs x = None ↔ ∀ e, ¬ violates kl kp vl x e.
Proof.
  intros Hr. rewrite Validate_None. split.
  - intros Hnil e He. apply (elem_of_Validate_errors kl kp vl kvs x e Hr) in He.
    rewrite Hnil in He. by apply elem_of_nil in He.
  - intros Hno. apply elem_of_nil_inv. intros e He.
    apply (Hno e). by apply (elem_of_Validate_errors kl kp vl kvs x e Hr).
Qed.

(** [Validate] returns nil exactly for the intentions whose source and
    destination tuples are legal, whose description, number of Meta
    entries, Meta keys and Meta values are within the limits, whose
    action is allow or deny and whose source type is consul. *)
Theorem Validate_accepts (metaKeyMaxLength metaMaxKeyPairs metaValueMaxLength : Z)
    (kvs : list (string * string)) (x : Intention) :
  range_of (Meta x) kvs →
  Validate metaKeyMaxLength metaMaxKeyPairs metaValueMaxLength kvs x = None ↔
    valid_tuples x
    ∧ len_string (Description x) ≤ metaValueMaxLength
    ∧ len_map (Meta x) ≤ metaMaxKeyPairs
    ∧ (∀ k v, meta_entries (Meta x) !! k = Some v →
              len_string k ≤ metaKeyMaxLength ∧ len_string v ≤ metaValueMaxLength)
    ∧ (Action x = IntentionActionAllow ∨ Action x = IntentionActionDeny)
    ∧ SourceType x = IntentionSourceConsul.
Proof.
  intros Hr. rewrite (Validate_None_violates _ _ _ kvs x Hr). split.
  - intros Hno.
    assert (Hpart : ∀ f, valid_part (field_of f x)).
    { intros f. split; [exact (Hno (MustBeSet f))|].
      destruct (decide (field_of f x = WildcardSpecifier)) as [Hw | Hw]; [by left|].
      right. apply not_true_is_false. intros Hc.
      by apply (Hno (PartialWildcard f)). }
    assert (Hfollow : ∀ f ns, namespace_of f = Some ns →
              field_of ns x = WildcardSpecifier → field_of f x = WildcardSpecifier).
    { intros f ns Hns Hw.
      destruct (decide (field_of f x = WildcardSpecifier)) as [Hf | Hf]; [done|].
      destruct (Hno (ExactAfterWildcard f)). by exists ns. }
    split_and!.
    + split; (split; [|split]).
      * apply (Hpart FSourceNS).
      * apply (Hpart FSourceName).
      * apply (Hfollow FSourceName FSourceNS eq_refl).
      * apply (Hpart FDestinationNS).
      * apply (Hpart FDestinationName).
      * apply (Hfollow FDestinationName FDestinationNS eq_refl).
    + pose proof (Hno DescriptionTooLong) as H. simpl in H. lia.
    + pose proof (Hno MetaTooManyPairs) as H. simpl in H. lia.
    + intros k v Hkv. split.
      * pose proof (Hno (MetaKeyTooLong k)) as H. simpl in H.
        destruct (Z.le_gt_cases (len_string k) metaKeyMaxLength); [done|].
        destruct H. split; [by eexists | lia].
      * pose proof (Hno (MetaValueTooLong k)) as H. simpl in H.
        destruct (Z.le_gt_cases (len_string v) metaValueMaxLength); [done|].
        destruct H. exists v. split; [done | lia].
    + pose proof (Hno ActionInvalid) as H. simpl in H.
      destruct (decide (Action x = IntentionActionAllow)); [by left|].
      destruct (decide (Action x = IntentionActionDeny)); [by right|].
      destruct H. by split.
    + pose proof (Hno SourceTypeInvalid) as H. simpl in H.
      by destruct (decide (SourceType x = IntentionSourceConsul)).
  - intros ([Hsrc Hdst] & Hdesc & Hcount & Hmeta & Haction & Htype).
    destruct Hsrc as ([Hs1 Hs2] & [Hs3 Hs4] & Hs5).
    destruct Hdst as ([Hd1 Hd2] & [Hd3 Hd4] & Hd5).
    intros e He. destruct e as [f|f|f| | |k|k| |]; simpl in He.
    + by destruct f.
    + destruct He as [Hw Hc].
      destruct f; simpl in *; [destruct Hs2 | destruct Hs4 | destruct Hd2 | destruct Hd4];
        congruence.
    + destruct He as (ns & Hns & Hw & Hnsw).
      destruct f; simplify_eq/=; auto.
    + lia.
    + lia.
    + destruct He as [[v Hv] Hlen]. destruct (Hmeta k v Hv). lia.
    + destruct He as (v & Hv & Hlen). destruct (Hmeta k v Hv). lia.
    + destruct He, Haction; done.
    + done.
Qed.

Lemma Validate_accepts_witness :
  Validate 128 64 512 [] web_to_db = None.
Proof.
  assert (Hr : range_of (Meta web_to_db) []).
  { unfold range_of. simpl. by rewrite map_to_list_empty. }
  apply (Validate_accepts 128 64 512 [] web_to_db Hr).
  split_and!; try done.
  - repeat split; auto; done.
  - by left.
Defined.

(** The errors of [Validate] do not depend on the order in which the
    loop visits [Meta], up to the order of the errors about its entries:
    two runs return permutations of each other, of the same length. *)
Theorem Validate_errors_Meta_order
    (metaKeyMaxLength metaMaxKeyPairs metaValueMaxLength : Z)
    (kvs1 kvs2 : list (string * string)) (x : Intention) :
  range_of (Meta x) kvs1 → range_of (Meta x) kvs2 →
  Validate_errors metaKeyMaxLength metaMaxKeyPairs metaValueMaxLength kvs1 x
  ≡ₚ Validate_errors metaKeyMaxLength metaMaxKeyPairs metaValueMaxLength kvs2 x
  ∧ length (Validate_errors metaKeyMaxLength metaMaxKeyPairs metaValueMaxLength
              kvs1 x)
    = length (Validate_errors metaKeyMaxLength metaMaxKeyPairs metaValueMaxLength
                kvs2 x)
  ∧ (Validate metaKeyMaxLength metaMaxKeyPairs metaValueMaxLength kvs1 x = None
     ↔ Validate metaKeyMaxLength metaMaxKeyPairs metaValueMaxLength kvs2 x = None).
Proof.
  unfold range_of. intros H1 H2.
  assert (Hp : kvs1 ≡ₚ kvs2) by by rewrite H1, H2.
  assert (Hperm :
    Validate_errors metaKeyMaxLength metaMaxKeyPairs metaValueMaxLength kvs1 x
    ≡ₚ Validate_errors metaKeyMaxLength metaMaxKeyPairs metaValueMaxLength kvs2 x).
  { rewrite !Validate_errors_unfold. by rewrite Hp. }
  split_and!; [done | by rewrite Hperm |].
  rewrite !Validate_None. split; intros Hnil.
  - apply Permutation_nil_r. by rewrite <- Hnil, Hperm.
  - apply Permutation_nil_r. by rewrite <- Hnil, Hperm.
Qed.

Lemma Validate_errors_Meta_order_witness :
  Validate_errors 3 64 3 two_tags tagged
  ≡ₚ Validate_errors 3 64 3 (reverse two_tags) tagged.
Proof.
  assert (Hnd : NoDup two_tags.*1).
  { apply (bool_decide_unpack (NoDup two_tags.*1)). vm_compute. exact I. }
  refine (proj1 (Validate_errors_Meta_order 3 64 3 two_tags (reverse two_tags)
                   tagged _ _)).
  - unfold range_of. symmetry. by apply map_to_list_to_map.
  - unfold range_of. rewrite reverse_Permutation. symmetry.
    by apply map_to_list_to_map.
Defined.

(** Stamping an intention leaves its validation as it was: [Validate]
    reads neither the precedence nor the hash, so it returns the same
    errors after [UpdatePrecedence] and [SetHash] as before. *)
Theorem Validate_after_stamping
    (metaKeyMaxLength metaMaxKeyPairs metaValueMaxLength : Z)
    (blake2b_Sum256 : list byte → list byte)
    (kvs kvs' : list (string * string)) (x : Intention) :
  Validate metaKeyMaxLength metaMaxKeyPairs metaValueMaxLength kvs
    (SetHash blake2b_Sum256 kvs' (UpdatePrecedence x))
  = Validate metaKeyMaxLength metaMaxKeyPairs metaValueMaxLength kvs x.
Proof.
  rewrite (UpdatePrecedence_frame x). by destruct x.
Qed.

(** ** More on the content hash *)

Lemma byte_of_Z_value (z : Z) : Z.of_N (Byte.to_N (byte_of_Z z)) = z mod 256.
Proof.
  unfold byte_of_Z.
  assert (Hlt : (Z.to_N (z mod 256) <= 255)%N).
  { pose proof (Z.mod_pos_bound z 256). lia. }
  pose proof (Byte.to_of_N_option_map (Z.to_N (z mod 256))) as Hmap.
  rewrite (proj2 (N.leb_le _ _) Hlt) in Hmap.
  destruct (Byte.of_N (Z.to_N (z mod 256))) as [b|]; [|done]. simpl in *.
  injection Hmap as ->. pose proof (Z.mod_pos_bound z 256). lia.
Qed.

(** The eight bytes written for the precedence read back as the
    number. *)
Lemma div_256_step (v k k' : Z) :
  0 ≤ k → k' = k + 1 →
  v / 2 ^ (8 * k) = (v / 2 ^ (8 * k)) mod 256 + 256 * (v / 2 ^ (8 * k')).
Proof.
  intros Hk ->.
  replace (2 ^ (8 * (k + 1))) with (2 ^ (8 * k) * 256).
  - rewrite <- Z.div_div by lia.
    rewrite (Z.add_comm _ (256 * _)). apply Z.div_mod. lia.
  - replace (8 * (k + 1)) with (8 * k + 8) by lia.
    rewrite Z.pow_add_r by lia. reflexivity.
Qed.

Lemma LittleEndian_uint64_value (v : Z) :
  0 ≤ v < 2 ^ 64 → LittleEndian_value (LittleEndian_uint64 v) = v.
Proof.
  intros Hv. unfold LittleEndian_uint64, LittleEndian_value.
  cbn [fmap list_fmap foldr].
  rewrite !byte_of_Z_value, !Z.shiftr_div_pow2 by lia.
  pose proof (div_256_step v 0 1 (Z.le_refl 0) eq_refl) as H0.
  pose proof (div_256_step v 1 2 ltac:(lia) eq_refl) as H1.
  pose proof (div_256_step v 2 3 ltac:(lia) eq_refl) as H2.
  pose proof (div_256_step v 3 4 ltac:(lia) eq_refl) as H3.
  pose proof (div_256_step v 4 5 ltac:(lia) eq_refl) as H4.
  pose proof (div_256_step v 5 6 ltac:(lia) eq_refl) as H5.
  pose proof (div_256_step v 6 7 ltac:(lia) eq_refl) as H6.
  pose proof (div_256_step v 7 8 ltac:(lia) eq_refl) as H7.
  assert (H8 : v / 2 ^ (8 * 8) = 0) by (apply Z.div_small; exact Hv).
  assert (Hv0 : v / 2 ^ (8 * 0) = v) by apply Z.div_1_r.
  rewrite H8 in H7. rewrite Hv0 in H0. rewrite Hv0.
  generalize dependent (v / 2 ^ (8 * 7)). generalize dependent (v / 2 ^ (8 * 6)).
  generalize dependent (v / 2 ^ (8 * 5)). generalize dependent (v / 2 ^ (8 * 4)).
  generalize dependent (v / 2 ^ (8 * 3)). generalize dependent (v / 2 ^ (8 * 2)).
  generalize dependent (v / 2 ^ (8 * 1)).
  intros d1 H0 d2 H1 d3 H2 d4 H3 d5 H4 d6 H5 d7 H6 H7.
  generalize dependent (d7 mod 256). generalize dependent (d6 mod 256).
  generalize dependent (d5 mod 256). generalize dependent (d4 mod 256).
  generalize dependent (d3 mod 256). generalize dependent (d2 mod 256).
  generalize dependent (d1 mod 256). generalize dependent (v mod 256).
  intros. lia.
Qed.

Lemma uint64_int_inj (p q : Z) :
  - 2 ^ 63 ≤ p < 2 ^ 63 → - 2 ^ 63 ≤ q < 2 ^ 63 → uint64 p = uint64 q → p = q.
Proof.
  unfold uint64. change (2 ^ 63) with 9223372036854775808.
  change (2 ^ 64) with 18446744073709551616. intros Hp Hq.
  Z.div_mod_to_equations. lia.
Qed.

Lemma bytes_inj (s1 s2 : string) : bytes s1 = bytes s2 → s1 = s2.
Proof.
  intros Hb. apply (f_equal String.string_of_list_byte) in Hb.
  unfold bytes in Hb. by rewrite !String.string_of_list_byte_of_string in Hb.
Qed.

(** The bytes written, call by call. *)
Lemma hash_writes_explicit (kvs : list (string * string)) (x : Intention) :
  hash_writes kvs x =
    bytes (ID x) ++ bytes (Description x) ++ bytes (SourceNS x) ++
    bytes (SourceName x) ++ bytes (DestinationNS x) ++
    bytes (DestinationName x) ++ bytes (SourceType x) ++ bytes (Action x) ++
    LittleEndian_uint64 (uint64 (Precedence x)) ++
    mjoin ((λ k, bytes k ++ bytes (map_index (Meta x) k))
             <$> sort_Strings kvs.*1).
Proof.
  rewrite hash_writes_unfold. unfold field_writes. by rewrite <- !app_assoc.
Qed.

(** The keys of a map, in the order [sort.Strings] leaves them. *)
Lemma sorted_keys_dom (m1 m2 : option MetaMap) (kvs1 kvs2 : list (string * string)) :
  range_of m1 kvs1 → range_of m2 kvs2 →
  (∀ k, is_Some (meta_entries m1 !! k) ↔ is_Some (meta_entries m2 !! k)) →
  sort_Strings kvs1.*1 = sort_Strings kvs2.*1
  ∧ NoDup (sort_Strings kvs1.*1)
  ∧ ∀ k, k ∈ sort_Strings kvs1.*1 ↔ is_Some (meta_entries m1 !! k).
Proof.
  intros H1%range_of_keys H2%range_of_keys Hdom.
  assert (Hin : ∀ (m : MetaMap) k, k ∈ (map_to_list m).*1 ↔ is_Some (m !! k)).
  { intros m k. rewrite list_elem_of_fmap. split.
    - intros ([k' v] & -> & Hkv%elem_of_map_to_list). by eexists.
    - intros [v Hv]. exists (k, v). split; [done|]. by apply elem_of_map_to_list. }
  split_and!.
  - apply sort_Strings_Permutation. rewrite H1, H2.
    apply NoDup_Permutation; [apply NoDup_fst_map_to_list..|].
    intros k. by rewrite !Hin.
  - destruct (sort_Strings_sorted kvs1.*1) as [_ ->]. rewrite H1.
    apply NoDup_fst_map_to_list.
  - intros k. destruct (sort_Strings_sorted kvs1.*1) as [_ ->].
    by rewrite H1, Hin.
Qed.

Lemma mjoin_cons {A} (l : list A) (ls : list (list A)) :
  mjoin (l :: ls) = l ++ mjoin ls.
Proof. reflexivity. Qed.

(** Changing the value of one key of [Meta] changes the bytes written
    for [Meta]. *)
Lemma meta_value_bytes (m1 m2 : option MetaMap) (keys : list string)
    (m : MetaMap) (k v v' : string) :
  NoDup keys → k ∈ keys →
  meta_entries m1 = <[k:=v]> m → meta_entries m2 = <[k:=v']> m →
  mjoin ((λ k0, bytes k0 ++ bytes (map_index m1 k0)) <$> keys)
  = mjoin ((λ k0, bytes k0 ++ bytes (map_index m2 k0)) <$> keys)
  → v = v'.
Proof.
  intros Hnd Hk H1 H2.
  apply list_elem_of_split in Hk as (ks1 & ks2 & ->).
  apply NoDup_app in Hnd as (_ & Hk1 & [Hk2 _]%NoDup_cons).
  assert (Hother : ∀ k0, k0 ≠ k → map_index m1 k0 = map_index m2 k0).
  { intros k0 Hne. unfold map_index.
    by rewrite H1, H2, !lookup_insert_ne. }
  assert (Hext : ∀ ks : list string, k ∉ ks →
            (λ k0, bytes k0 ++ bytes (map_index m1 k0)) <$> ks
            = (λ k0, bytes k0 ++ bytes (map_index m2 k0)) <$> ks).
  { intros ks Hks. apply list_fmap_ext. intros i k0 Hk0%list_elem_of_lookup_2.
    rewrite Hother; [done|]. by intros ->. }
  rewrite !fmap_app, !fmap_cons, !join_app, !mjoin_cons.
  assert (Hnot1 : k ∉ ks1).
  { intros Hin. apply (Hk1 k Hin). by left. }
  rewrite (Hext ks1 Hnot1), (Hext ks2 Hk2).
  intros Heq. apply app_inv_head in Heq. apply app_inv_tail in Heq.
  apply app_inv_head in Heq. apply bytes_inj in Heq.
  unfold map_index in Heq. by rewrite H1, H2, !lookup_insert_eq in Heq.
Qed.

(** Rewriting with the agreement on a string other than the one under
    study. *)
Ltac use_other Hother g :=
  try (let E := fresh "E" in
       pose proof (Hother g ltac:(discriminate)) as E;
       simpl in E; rewrite E; clear E).

(** C5, as the code has it: [SetHash] assigns nothing but [Hash], and
    the digest is the hash of the bytes of ID, Description, SourceNS,
    SourceName, DestinationNS, DestinationName, SourceType, Action, the
    eight little-endian bytes of the precedence and the Meta entries in
    key order, one after the other. Two intentions with the same
    content receive the same digest, whatever their other fields and
    whatever order the loops over Meta take. Two digests are the same
    only when the bytes are or the hash function collides on them; and
    the bytes differ whenever the two intentions differ in one place
    only: in one of the eight strings, in the precedence, or in the
    value of one Meta key. *)
Theorem SetHash_content (blake2b_Sum256 : list byte → list byte)
    (x y : Intention) (kvs1 kvs2 : list (string * string)) :
  range_of (Meta x) kvs1 → range_of (Meta y) kvs2 →
  let same_bytes := hash_writes kvs1 x = hash_writes kvs2 y in
  let same_digest :=
    Hash (SetHash blake2b_Sum256 kvs1 x) = Hash (SetHash blake2b_Sum256 kvs2 y) in
  Hash (SetHash blake2b_Sum256 kvs1 x)
  = Some (blake2b_Sum256
            (bytes (ID x) ++ bytes (Description x) ++ bytes (SourceNS x) ++
             bytes (SourceName x) ++ bytes (DestinationNS x) ++
             bytes (DestinationName x) ++ bytes (SourceType x) ++
             bytes (Action x) ++ LittleEndian_uint64 (uint64 (Precedence x)) ++
             mjoin ((λ k, bytes k ++ bytes (map_index (Meta x) k))
                      <$> sort_Strings kvs1.*1)))
  ∧ Hash (SetHash blake2b_Sum256 kvs1 x)
    = Some (blake2b_Sum256 (hash_writes kvs1 x))
  ∧ SetHash blake2b_Sum256 kvs1 x
    = set_Hash (Hash (SetHash blake2b_Sum256 kvs1 x)) x
  ∧ (content x = content y → same_bytes ∧ same_digest)
  ∧ (same_digest ↔
       blake2b_Sum256 (hash_writes kvs1 x) = blake2b_Sum256 (hash_writes kvs2 y))
  ∧ ((blake2b_Sum256 (hash_writes kvs1 x) = blake2b_Sum256 (hash_writes kvs2 y)
       → same_bytes)
     → (same_digest ↔ same_bytes))
  ∧ (∀ f,
       (∀ g, g ≠ f → hashed_string g x = hashed_string g y) →
       Precedence x = Precedence y →
       meta_entries (Meta x) = meta_entries (Meta y) →
       (same_bytes ↔ hashed_string f x = hashed_string f y))
  ∧ ((∀ g, hashed_string g x = hashed_string g y) →
     meta_entries (Meta x) = meta_entries (Meta y) →
     - 2 ^ 63 ≤ Precedence x < 2 ^ 63 → - 2 ^ 63 ≤ Precedence y < 2 ^ 63 →
     (same_bytes ↔ Precedence x = Precedence y))
  ∧ (∀ m k v v',
       fixed_content x = fixed_content y →
       meta_entries (Meta x) = <[k:=v]> m →
       meta_entries (Meta y) = <[k:=v']> m →
       (same_bytes ↔ v = v')).
Proof.
  intros H1 H2 same_bytes same_digest.
  assert (Hdigest : same_digest ↔
            blake2b_Sum256 (hash_writes kvs1 x)
            = blake2b_Sum256 (hash_writes kvs2 y)).
  { unfold same_digest. simpl. split; [by intros [= ->] | by intros ->]. }
  assert (Hmeta : meta_entries (Meta x) = meta_entries (Meta y) →
            mjoin ((λ k, bytes k ++ bytes (map_index (Meta x) k))
                     <$> sort_Strings kvs1.*1)
            = mjoin ((λ k, bytes k ++ bytes (map_index (Meta y) k))
                       <$> sort_Strings kvs2.*1)).
  { intros Hm.
    destruct (sorted_keys_dom (Meta x) (Meta y) kvs1 kvs2 H1 H2) as [-> _].
    { intros k. by rewrite Hm. }
    f_equal. apply list_fmap_ext. intros _ k _. unfold map_index. by rewrite Hm. }
  split_and!.
  - simpl. by rewrite hash_writes_explicit.
  - done.
  - by destruct x.
  - intros Hc.
    assert (Hw : same_bytes) by by apply hash_writes_content.
    split; [done|]. apply Hdigest. by rewrite Hw.
  - exact Hdigest.
  - intros Hfree. rewrite Hdigest. split; [done | by intros ->].
  - intros f Hother Hp Hm. unfold same_bytes.
    rewrite !hash_writes_explicit, (Hmeta Hm), Hp.
    split.
    + destruct f;
        use_other Hother HID; use_other Hother HDescription;
        use_other Hother HSourceNS; use_other Hother HSourceName;
        use_other Hother HDestinationNS; use_other Hother HDestinationName;
        use_other Hother HSourceType; use_other Hother HAction;
        intros Heq; repeat apply app_inv_head in Heq;
        apply app_inv_tail in Heq; by apply bytes_inj in Heq.
    + intros Hf.
      assert (Hall : ∀ g, hashed_string g x = hashed_string g y).
      { intros g. destruct (decide (g = f)) as [-> | Hne]; [done | by apply Hother]. }
      pose proof (Hall HID) as E1. pose proof (Hall HDescription) as E2.
      pose proof (Hall HSourceNS) as E3. pose proof (Hall HSourceName) as E4.
      pose proof (Hall HDestinationNS) as E5.
      pose proof (Hall HDestinationName) as E6.
      pose proof (Hall HSourceType) as E7. pose proof (Hall HAction) as E8.
      simpl in *. by rewrite E1, E2, E3, E4, E5, E6, E7, E8.
  - intros Hall Hm Hpx Hpy. unfold same_bytes.
    rewrite !hash_writes_explicit, (Hmeta Hm).
    pose proof (Hall HID) as E1. pose proof (Hall HDescription) as E2.
    pose proof (Hall HSourceNS) as E3. pose proof (Hall HSourceName) as E4.
    pose proof (Hall HDestinationNS) as E5.
    pose proof (Hall HDestinationName) as E6.
    pose proof (Hall HSourceType) as E7. pose proof (Hall HAction) as E8.
    simpl in E1, E2, E3, E4, E5, E6, E7, E8.
    rewrite E1, E2, E3, E4, E5, E6, E7, E8.
    split; [|by intros ->].
    intros Heq. do 8 apply app_inv_head in Heq. apply app_inv_tail in Heq.
    apply (f_equal LittleEndian_value) in Heq.
    rewrite !LittleEndian_uint64_value in Heq
      by (unfold uint64; apply Z.mod_pos_bound; lia).
    by apply uint64_int_inj.
  - intros m k v v' Hf Hx Hy. unfold same_bytes.
    rewrite !hash_writes_unfold, (field_writes_fixed_content x y Hf).
    destruct (sorted_keys_dom (Meta x) (Meta y) kvs1 kvs2 H1 H2)
      as (Hkeys & Hnd & Hin).
    { intros k0. rewrite Hx, Hy.
      destruct (decide (k = k0)) as [-> | Hne].
      - by rewrite !lookup_insert_eq.
      - by rewrite !lookup_insert_ne. }
    rewrite <- Hkeys. split.
    + intros Heq. apply app_inv_head in Heq.
      apply (meta_value_bytes (Meta x) (Meta y) _ m k v v' Hnd); [|done..].
      apply Hin. rewrite Hx, lookup_insert_eq. by eexists.
    + intros <-. do 2 f_equal. apply list_fmap_ext. intros _ k0 _.
      unfold map_index. by rewrite Hx, Hy.
Qed.

Lemma SetHash_content_witness :
  Hash (SetHash plain_digest two_tags tagged)
  = Hash (SetHash plain_digest (reverse two_tags) tagged_stored)
  ∧ Hash (SetHash plain_digest [] allow_web_db)
    ≠ Hash (SetHash plain_digest [] deny_web_db).
Proof.
  assert (Hnd : NoDup two_tags.*1).
  { apply (bool_decide_unpack (NoDup two_tags.*1)). vm_compute. exact I. }
  assert (Hnil : range_of None []).
  { unfold range_of. simpl. by rewrite map_to_list_empty. }
  split.
  - assert (H1 : range_of (Meta tagged) two_tags).
    { unfold range_of. symmetry. by apply map_to_list_to_map. }
    assert (H2 : range_of (Meta tagged_stored) (reverse two_tags)).
    { unfold range_of. symmetry. apply map_to_list_to_map.
      apply (bool_decide_unpack (NoDup (reverse two_tags).*1)).
      vm_compute. exact I. }
    destruct (SetHash_content plain_digest tagged tagged_stored two_tags
                (reverse two_tags) H1 H2) as (_ & _ & _ & Hsame & _).
    by apply Hsame.
  - destruct (SetHash_content plain_digest allow_web_db deny_web_db [] []
                Hnil Hnil) as (_ & _ & _ & _ & _ & Hfree & Hfield & _).
    intros Hd. apply Hfree in Hd; [|done].
    apply (Hfield HAction) in Hd; [done | | done..].
    intros g Hg. by destruct g.
Defined.

(** [SetHash] does not read the hash it replaces: the digest is the same
    whatever [Hash] held before, and hashing twice, under any two orders
    of the loop over [Meta], gives what hashing once gives. *)
Theorem SetHash_idempotent (blake2b_Sum256 : list byte → list byte)
    (kvs kvs' : list (string * string)) (x : Intention) :
  range_of (Meta x) kvs → range_of (Meta x) kvs' →
  SetHash blake2b_Sum256 kvs (SetHash blake2b_Sum256 kvs' x)
  = SetHash blake2b_Sum256 kvs' x
  ∧ ∀ h, SetHash blake2b_Sum256 kvs (set_Hash h x) = SetHash blake2b_Sum256 kvs x.
Proof.
  intros Hr Hr'.
  assert (Hh : ∀ h, SetHash blake2b_Sum256 kvs (set_Hash h x)
                    = SetHash blake2b_Sum256 kvs x) by (intros h; by destruct x).
  split; [|exact Hh].
  unfold SetHash at 2. rewrite Hh. unfold SetHash.
  by rewrite (hash_writes_content x x kvs kvs' Hr Hr' eq_refl).
Qed.

Lemma SetHash_idempotent_witness :
  SetHash sample_digest two_tags (SetHash sample_digest (reverse two_tags) tagged)
  = SetHash sample_digest (reverse two_tags) tagged.
Proof.
  assert (Hnd : NoDup two_tags.*1).
  { apply (bool_decide_unpack (NoDup two_tags.*1)). vm_compute. exact I. }
  refine (proj1 (SetHash_idempotent sample_digest two_tags (reverse two_tags)
                   tagged _ _)).
  - unfold range_of. symmetry. by apply map_to_list_to_map.
  - unfold range_of. rewrite reverse_Permutation. symmetry.
    by apply map_to_list_to_map.
Defined.

(** A stale precedence shows in the bytes that are hashed: two
    intentions that differ in nothing but their [Precedence] write
    different bytes, the eight bytes of the precedence being at the
    same place in both. *)
Theorem hash_writes_Precedence (kvs : list (string * string)) (x : Intention)
    (p q : Z) :
  - 2 ^ 63 ≤ p < 2 ^ 63 → - 2 ^ 63 ≤ q < 2 ^ 63 →
  hash_writes kvs (set_Precedence p x) = hash_writes kvs (set_Precedence q x)
  ↔ p = q.
Proof.
  intros Hp Hq. split; [|by intros ->].
  rewrite !hash_writes_unfold. unfold field_writes. simpl.
  intros H. apply app_inv_tail in H.
  do 8 apply app_inv_head in H.
  apply (f_equal LittleEndian_value) in H.
  rewrite !LittleEndian_uint64_value in H
    by (unfold uint64; apply Z.mod_pos_bound; lia).
  by apply uint64_int_inj.
Qed.

Lemma hash_writes_Precedence_witness :
  hash_writes [] (set_Precedence 9 web_to_db)
  = hash_writes [] (set_Precedence 5 web_to_db) ↔ 9 = 5.
Proof.
  apply (hash_writes_Precedence [] web_to_db 9 5); lia.
Defined.

(** ** Size estimate *)

Lemma int_wrap_add_l (a b : Z) : int_wrap (int_wrap a + b) = int_wrap (a + b).
Proof.
  unfold int_wrap. f_equal.
  replace ((a + 2 ^ 63) mod 2 ^ 64 - 2 ^ 63 + b + 2 ^ 63)
    with ((a + 2 ^ 63) mod 2 ^ 64 + b) by lia.
  rewrite Z.add_mod_idemp_l by lia. f_equal. lia.
Qed.

Lemma int_wrap_add_r (a b : Z) : int_wrap (a + int_wrap b) = int_wrap (a + b).
Proof. by rewrite (Z.add_comm a), int_wrap_add_l, Z.add_comm. Qed.

Lemma int_add_wrap_l (a b : Z) : int_add (int_wrap a) b = int_wrap (a + b).
Proof. apply int_wrap_add_l. Qed.

Lemma int_wrap_small (z : Z) : - 2 ^ 63 ≤ z < 2 ^ 63 → int_wrap z = z.
Proof.
  intros Hz. unfold int_wrap. rewrite Z.mod_small; lia.
Qed.

Lemma sum_Z_Permutation (l1 l2 : list Z) : l1 ≡ₚ l2 → sum_Z l1 = sum_Z l2.
Proof.
  induction 1; simpl; lia.
Qed.

Lemma foldl_int_add (kvs : list (string * string)) (size : Z) :
  foldl (λ size kv, int_add size (int_add (len_string kv.1) (len_string kv.2)))
        (int_wrap size) kvs
  = int_wrap (size + sum_Z (entry_size <$> kvs)).
Proof.
  revert size. induction kvs as [|kv kvs IH]; intros size; simpl.
  - by rewrite Z.add_0_r.
  - assert (E : int_add (int_wrap size)
                  (int_add (len_string kv.1) (len_string kv.2))
                = int_wrap (size + entry_size kv)).
    { unfold int_add, entry_size. by rewrite int_wrap_add_l, int_wrap_add_r. }
    rewrite E, IH. f_equal. unfold fmap. lia.
Qed.

(** [EstimateSize] is 56 plus the lengths of the seven strings other
    than the ID plus the lengths of all Meta keys and values, as a Go
    [int]; it is the same for every order of the loop over [Meta], and
    it is that very sum, at least 56, as long as the sum fits an
    [int]. *)
Theorem EstimateSize_sum (kvs : list (string * string)) (x : Intention) :
  range_of (Meta x) kvs →
  let total :=
    56 + len_string (Description x) + len_string (SourceNS x)
    + len_string (SourceName x) + len_string (DestinationNS x)
    + len_string (DestinationName x) + len_string (SourceType x)
    + len_string (Action x)
    + sum_Z (entry_size <$> map_to_list (meta_entries (Meta x))) in
  EstimateSize kvs x = int_wrap total
  ∧ (total < 2 ^ 63 → EstimateSize kvs x = total ∧ 56 ≤ EstimateSize kvs x).
Proof.
  intros Hr total.
  assert (Hsum : sum_Z (entry_size <$> kvs)
                 = sum_Z (entry_size <$> map_to_list (meta_entries (Meta x)))).
  { apply sum_Z_Permutation. unfold range_of in Hr. by rewrite Hr. }
  assert (Hentries : 0 ≤ sum_Z (entry_size <$> map_to_list (meta_entries (Meta x)))).
  { generalize (map_to_list (meta_entries (Meta x))).
    induction l as [|kv l IH]; [done|].
    rewrite fmap_cons. change (0 ≤ entry_size kv + sum_Z (entry_size <$> l)).
    unfold entry_size at 1, len_string. lia. }
  assert (Heq : EstimateSize kvs x = int_wrap total).
  { unfold EstimateSize.
    change (int_add 56 (len_string (Description x)))
      with (int_wrap (56 + len_string (Description x))).
    rewrite !int_add_wrap_l, foldl_int_add, Hsum. reflexivity. }
  split; [exact Heq|].
  intros Hfit. rewrite Heq.
  assert (56 ≤ total) by (unfold total, len_string; lia).
  rewrite int_wrap_small by lia. done.
Qed.

Lemma EstimateSize_sum_witness :
  EstimateSize two_tags tagged = 105
  ∧ EstimateSize (reverse two_tags) tagged = 105.
Proof.
  assert (Hnd : NoDup two_tags.*1).
  { apply (bool_decide_unpack (NoDup two_tags.*1)). vm_compute. exact I. }
  assert (H1 : range_of (Meta tagged) two_tags).
  { unfold range_of. symmetry. by apply map_to_list_to_map. }
  assert (H2 : range_of (Meta tagged) (reverse two_tags)).
  { unfold range_of. rewrite reverse_Permutation. symmetry.
    by apply map_to_list_to_map. }
  destruct (EstimateSize_sum two_tags tagged H1) as [E1 _].
  destruct (EstimateSize_sum (reverse two_tags) tagged H2) as [E2 _].
  split; [rewrite E1 | rewrite E2]; vm_compute; reflexivity.
Defined.

(** ** More on cloning *)

(** [Clone] panics exactly on an address that holds no intention. *)
Theorem Clone_panics (kvs : list (string * string)) (σ : heap) (t : loc) :
  Meta_allocated σ t →
  Clone kvs σ t = None ↔ structs σ !! t = None.
Proof.
  intros Halloc. unfold Clone.
  destruct (structs σ !! t) as [x|] eqn:Hx; simpl; [|done].
  split; [|done].
  destruct (Meta x) as [l|] eqn:HM; [|done].
  destruct (Halloc x l Hx HM) as [m Hm]. by rewrite Hm.
Qed.

Lemma Clone_panics_witness :
  Clone [] sample_heap 2%positive = None
  ∧ is_Some (Clone [("team", "payments")] sample_heap 1%positive).
Proof.
  assert (Halloc2 : Meta_allocated sample_heap 2%positive).
  { intros x l Hx. discriminate Hx. }
  split.
  - by apply (Clone_panics [] sample_heap 2%positive Halloc2).
  - by eexists.
Defined.

(** The content of the clone, from the content of the original. *)
Lemma Clone_load (kvs : list (string * string)) (σ : heap) (t : loc)
    (x : IntentionRef) :
  structs σ !! t = Some x →
  Meta_allocated σ t →
  range_of_Meta σ t kvs →
  ∃ p σ' v,
    Clone kvs σ t = Some (p, σ')
    ∧ load σ t = Some v
    ∧ load σ' p = Some (set_Hash None v).
Proof.
  intros Hx Halloc Hrange.
  unfold Clone, load. rewrite Hx. simpl. unfold resolve.
  destruct (Meta x) as [l|] eqn:HM.
  - destruct (Halloc x l Hx HM) as [m Hm]. rewrite Hm. simpl.
    pose proof (Hrange x l m Hx HM Hm) as Hkvs.
    rewrite (foldl_map_store kvs _ _ ∅) by (simpl; apply lookup_insert_eq).
    simpl. rewrite (copy_entries kvs m Hkvs), insert_insert_eq.
    eexists _, _, _. split_and!; [done..|].
    simpl. rewrite lookup_insert_eq. simpl. by rewrite lookup_insert_eq.
  - eexists _, _, _. split_and!; [done..|].
    simpl. rewrite lookup_insert_eq. simpl. by rewrite HM.
Qed.

(** A clone stands for its original in the other operations: it gets
    the same digest from [SetHash], the same errors from [Validate] and
    the same size estimate; and when the original's hash was up to
    date, [SetHash] on the clone gives back the original's content,
    hash included. *)
Theorem Clone_then_SetHash (blake2b_Sum256 : list byte → list byte)
    (metaKeyMaxLength metaMaxKeyPairs metaValueMaxLength : Z)
    (kvs : list (string * string)) (σ : heap) (t : loc) (x : IntentionRef) :
  structs σ !! t = Some x →
  Meta_allocated σ t →
  range_of_Meta σ t kvs →
  ∃ p σ' v c,
    Clone kvs σ t = Some (p, σ')
    ∧ load σ t = Some v
    ∧ load σ' p = Some c
    ∧ ∀ kvs' : list (string * string),
        SetHash blake2b_Sum256 kvs' c = SetHash blake2b_Sum256 kvs' v
        ∧ Validate metaKeyMaxLength metaMaxKeyPairs metaValueMaxLength kvs' c
          = Validate metaKeyMaxLength metaMaxKeyPairs metaValueMaxLength kvs' v
        ∧ EstimateSize kvs' c = EstimateSize kvs' v
        ∧ (Hash v = Hash (SetHash blake2b_Sum256 kvs' v) →
           SetHash blake2b_Sum256 kvs' c = v).
Proof.
  intros Hx Halloc Hrange.
  destruct (Clone_load kvs σ t x Hx Halloc Hrange) as (p & σ' & v & HC & Hv & Hc).
  exists p, σ', v, (set_Hash None v). split_and!; [done..|].
  intros kvs'.
  assert (HS : SetHash blake2b_Sum256 kvs' (set_Hash None v)
               = SetHash blake2b_Sum256 kvs' v) by by destruct v.
  split_and!; [done | by destruct v | by destruct v |].
  intros Hup. rewrite HS. unfold SetHash in *. simpl in Hup.
  rewrite <- Hup. by destruct v.
Qed.

Lemma Clone_then_SetHash_witness :
  ∃ p σ' c,
    Clone [("team", "payments")] sample_heap 1%positive = Some (p, σ')
    ∧ load σ' p = Some c
    ∧ Some (SetHash sample_digest [("team", "payments")] c)
      = SetHash sample_digest [("team", "payments")]
          <$> load sample_heap 1%positive.
Proof.
  assert (Hx : structs sample_heap !! 1%positive
               = Some (set_Meta (Some 1%positive) web_to_db)) by reflexivity.
  assert (Halloc : Meta_allocated sample_heap 1%positive).
  { intros x l Hx' HM.
    assert (E : Some x = Some (set_Meta (Some 1%positive) web_to_db))
      by exact (eq_trans (eq_sym Hx') Hx).
    injection E as ->. injection HM as <-. by eexists. }
  assert (Hrange : range_of_Meta sample_heap 1%positive [("team", "payments")]).
  { intros x l m Hx' HM Hm.
    assert (E : Some x = Some (set_Meta (Some 1%positive) web_to_db))
      by exact (eq_trans (eq_sym Hx') Hx).
    injection E as ->. injection HM as <-. injection Hm as <-.
    change ([("team", "payments")]
            ≡ₚ map_to_list ({[ "team" := "payments" ]} : MetaMap)).
    by rewrite map_to_list_singleton. }
  destruct (Clone_then_SetHash sample_digest 128 64 512 [("team", "payments")]
              sample_heap 1%positive _ Hx Halloc Hrange)
    as (p & σ' & v & c & HC & Hv & Hc & Hsame).
  exists p, σ', c. split_and!; [done..|].
  rewrite Hv. simpl. f_equal. apply Hsame.
Defined.

(** ** More on JSON decoding *)

Section json_more.
Context {Error : Type}.
Variable lib_UnmarshalJSON : list byte → Aux → option Error * Aux.

(** A hash string that is not empty becomes the [Hash] byte for byte,
    as many bytes as the string has, with nothing decoded: the string
    reads back from it. When the decoder fails, its error is returned
    and no [Hash] is assigned, whatever string it had found. *)
Theorem UnmarshalJSON_Hash_bytes (data : list byte) (t : Intention) :
  let r := lib_UnmarshalJSON data (mkAux "" "" "" t) in
  (r.1 = None → aux_Hash r.2 ≠ "" →
     UnmarshalJSON lib_UnmarshalJSON data t
     = (None, set_Hash (Some (bytes (aux_Hash r.2))) (aux_Alias r.2))
     ∧ String.string_of_list_byte (bytes (aux_Hash r.2)) = aux_Hash r.2
     ∧ length (bytes (aux_Hash r.2)) = String.length (aux_Hash r.2))
  ∧ (∀ err, r.1 = Some err →
       UnmarshalJSON lib_UnmarshalJSON data t = (Some err, aux_Alias r.2)).
Proof.
  intros r. unfold UnmarshalJSON. fold r.
  destruct r as [err aux]; simpl. split.
  - intros -> Hne. apply String.eqb_neq in Hne. rewrite Hne. simpl.
    split_and!; [done | apply String.string_of_list_byte_of_string |].
    unfold bytes, String.list_byte_of_string. rewrite length_map.
    generalize (aux_Hash aux). induction s as [|c s IH]; simpl; congruence.
  - by intros err' ->.
Qed.
End json_more.

Lemma UnmarshalJSON_Hash_bytes_witness :
  UnmarshalJSON raw_decoder (bytes "2f6a") zero_Intention
  = (None, set_Hash (Some (bytes "2f6a")) zero_Intention).
Proof.
  exact (proj1 (proj1 (UnmarshalJSON_Hash_bytes raw_decoder (bytes "2f6a")
                         zero_Intention) eq_refl ltac:(discriminate))).
Defined.

(** ** The cache key of a match query *)

Lemma hex_value_digit (d : Z) : 0 ≤ d < 16 → hex_value (hex_digit d) = d.
Proof.
  intros Hd.
  assert (d = 0 ∨ d = 1 ∨ d = 2 ∨ d = 3 ∨ d = 4 ∨ d = 5 ∨ d = 6 ∨ d = 7 ∨
          d = 8 ∨ d = 9 ∨ d = 10 ∨ d = 11 ∨ d = 12 ∨ d = 13 ∨ d = 14 ∨ d = 15)
    as Hcases by lia.
  repeat (destruct Hcases as [-> | Hcases]; [reflexivity|]). by subst.
Qed.

Lemma list_ascii_of_string_app (s1 s2 : string) :
  String.list_ascii_of_string (s1 +:+ s2)
  = String.list_ascii_of_string s1 ++ String.list_ascii_of_string s2.
Proof. induction s1 as [|c s1 IH]; simpl; [done | by rewrite IH]. Qed.

Lemma string_app_assoc (s1 s2 s3 : string) :
  (s1 +:+ s2) +:+ s3 = s1 +:+ (s2 +:+ s3).
Proof.
  induction s1 as [|c s1 IH]; [done|].
  change (String c ((s1 +:+ s2) +:+ s3) = String c (s1 +:+ (s2 +:+ s3))).
  by rewrite IH.
Qed.

(** The digits already produced stay behind the ones to come. *)
Lemma formatBits16_app (fuel : nat) (u : Z) (a : string) :
  formatBits16 fuel u a = formatBits16 fuel u "" +:+ a.
Proof.
  revert u a. induction fuel as [|fuel IH]; intros u a; simpl; [done|].
  destruct (16 <=? u); [|done].
  rewrite IH, (IH _ (String _ "")), string_app_assoc. done.
Qed.

Lemma parse_hex_snoc (s : string) (c : ascii) :
  parse_hex (s +:+ String c "") = 16 * parse_hex s + hex_value c.
Proof.
  unfold parse_hex. rewrite list_ascii_of_string_app, foldl_app. done.
Qed.

Lemma formatBits16_parse (fuel : nat) (u : Z) :
  0 ≤ u < 16 ^ Z.of_nat (S fuel) → parse_hex (formatBits16 fuel u "") = u.
Proof.
  revert u. induction fuel as [|fuel IH]; intros u Hu.
  - change (16 ^ Z.of_nat 1) with 16 in Hu.
    unfold parse_hex. simpl.
    rewrite hex_value_digit by exact Hu. lia.
  - assert (Hpow : 16 ^ Z.of_nat (S (S fuel)) = 16 * 16 ^ Z.of_nat (S fuel)).
    { rewrite (Nat2Z.inj_succ (S fuel)), Z.pow_succ_r by apply Nat2Z.is_nonneg.
      reflexivity. }
    rewrite Hpow in Hu. clear Hpow.
    generalize dependent (16 ^ Z.of_nat (S fuel)). intros P IH Hu.
    cbn [formatBits16].
    destruct (Z.leb_spec 16 u) as [Hge | Hlt].
    + rewrite formatBits16_app, parse_hex_snoc.
      rewrite Z.shiftr_div_pow2 by done. change (2 ^ 4) with 16.
      change (Z.land u 15) with (Z.land u (Z.ones 4)).
      rewrite (Z.land_ones u 4) by done. change (2 ^ 4) with 16.
      rewrite IH.
      * rewrite hex_value_digit by (apply Z.mod_pos_bound; done).
        symmetry. apply Z.div_mod. done.
      * split; [apply Z.div_pos; lia|].
        apply Z.div_lt_upper_bound; [done | lia].
    + unfold parse_hex. simpl. rewrite hex_value_digit by lia. lia.
Qed.

Lemma formatBits16_nonempty (fuel : nat) (u : Z) (a : string) :
  formatBits16 fuel u a ≠ "".
Proof.
  revert u a. induction fuel as [|fuel IH]; intros u a; cbn [formatBits16].
  - done.
  - destruct (16 <=? u); [apply IH | done].
Qed.

(** [FormatUint16] never returns the empty string, and its result reads
    back as the number. *)
Lemma FormatUint16_parse (v : Z) :
  0 ≤ v < 2 ^ 64 → FormatUint16 v ≠ "" ∧ parse_hex (FormatUint16 v) = v.
Proof.
  intros Hv. split.
  - apply formatBits16_nonempty.
  - apply (formatBits16_parse 15). exact Hv.
Qed.

Section CacheInfo_properties.
Context {Error : Type}.
Variable hashstructure_Hash : IntentionQueryMatch → Z * option Error.

(** The key of [CacheInfo] is blank, which turns caching off, exactly
    when the request is not a match query or its parameters could not
    be hashed; a request that is not a match query gets the empty info,
    without even its token, and a match query gets its token, its
    datacenter, its minimum index and its timeout whether or not the
    hash succeeded. *)
Theorem CacheInfo_blank_key (q : IntentionQueryRequest.t) :
  (∀ m, 0 ≤ (hashstructure_Hash m).1 < 2 ^ 64) →
  (cache.Key (IntentionQueryRequest.CacheInfo hashstructure_Hash q) = "" ↔
     IntentionQueryRequest.Match q = None
     ∨ ∃ m err, IntentionQueryRequest.Match q = Some m
              ∧ (hashstructure_Hash m).2 = Some err)
  ∧ (IntentionQueryRequest.Match q = None →
     IntentionQueryRequest.CacheInfo hashstructure_Hash q = cache.zero)
  ∧ (is_Some (IntentionQueryRequest.Match q) →
     let info := IntentionQueryRequest.CacheInfo hashstructure_Hash q in
     cache.Token info = IntentionQueryRequest.Token q
     ∧ cache.Datacenter info = IntentionQueryRequest.Datacenter q
     ∧ cache.MinIndex info = IntentionQueryRequest.MinQueryIndex q
     ∧ cache.Timeout info = IntentionQueryRequest.MaxQueryTime q).
Proof.
  intros Hrange. unfold IntentionQueryRequest.CacheInfo.
  destruct (IntentionQueryRequest.Match q) as [m|] eqn:Hm.
  - specialize (Hrange m).
    destruct (hashstructure_Hash m) as [v [err|]] eqn:Hh; simpl in *.
    + split_and!; [|done|done]. split; [|done].
      intros _. right. exists m, err. by rewrite Hh.
    + split_and!; [|done|done]. split.
      * intros Hk. by destruct (FormatUint16_parse v Hrange) as [Hne _].
      * intros [? | (m' & err & [= <-] & Herr)]; [done|].
        rewrite Hh in Herr. done.
  - split_and!; [|done|by intros [? ?]]. split; [by left | done].
Qed.

(** The key depends on the match parameters only, and it tells their
    hashes apart: two match queries whose parameters hash to the same
    number get the same key whatever else they hold, and when the
    numbers differ the keys differ, the key being the number written in
    base 16. *)
Theorem CacheInfo_key_of_hash (q1 q2 : IntentionQueryRequest.t)
    (m1 m2 : IntentionQueryMatch) (v1 v2 : Z) :
  IntentionQueryRequest.Match q1 = Some m1 →
  IntentionQueryRequest.Match q2 = Some m2 →
  hashstructure_Hash m1 = (v1, None) → hashstructure_Hash m2 = (v2, None) →
  0 ≤ v1 < 2 ^ 64 → 0 ≤ v2 < 2 ^ 64 →
  parse_hex (cache.Key (IntentionQueryRequest.CacheInfo hashstructure_Hash q1)) = v1
  ∧ (cache.Key (IntentionQueryRequest.CacheInfo hashstructure_Hash q1)
     = cache.Key (IntentionQueryRequest.CacheInfo hashstructure_Hash q2)
     ↔ v1 = v2).
Proof.
  intros Hm1 Hm2 Hh1 Hh2 Hv1 Hv2.
  unfold IntentionQueryRequest.CacheInfo. rewrite Hm1, Hm2, Hh1, Hh2. simpl.
  destruct (FormatUint16_parse v1 Hv1) as [_ Hp1].
  destruct (FormatUint16_parse v2 Hv2) as [_ Hp2].
  split; [done|]. split; [|by intros ->].
  intros Hk. by rewrite <- Hp1, <- Hp2, Hk.
Qed.
End CacheInfo_properties.

Lemma CacheInfo_key_of_hash_witness :
  parse_hex (cache.Key (IntentionQueryRequest.CacheInfo count_entries query_db)) = 1
  ∧ (cache.Key (IntentionQueryRequest.CacheInfo count_entries query_db)
     = cache.Key (IntentionQueryRequest.CacheInfo count_entries query_two)
     ↔ 1 = 2).
Proof.
  apply (CacheInfo_key_of_hash count_entries query_db query_two match_db match_two
           1 2 eq_refl eq_refl eq_refl eq_refl); lia.
Defined.

Lemma CacheInfo_blank_key_witness :
  cache.Key (IntentionQueryRequest.CacheInfo count_entries query_db) = "1"
  ∧ IntentionQueryRequest.CacheInfo count_entries
      (IntentionQueryRequest.mk "dc1" "" None "token" 7 600)
    = cache.zero.
Proof.
  assert (Hrange : ∀ m, 0 ≤ (count_entries m).1 < 2 ^ 64).
  { intros m. unfold count_entries, uint64. simpl.
    apply Z.mod_pos_bound. lia. }
  destruct (CacheInfo_blank_key count_entries
              (IntentionQueryRequest.mk "dc1" "" None "token" 7 600) Hrange)
    as (_ & Hzero & _).
  split; [reflexivity | by apply Hzero].
Defined.

(** ** Partial wildcards *)

Lemma prefix_app (p s : string) :
  String.prefix p s = true ↔ ∃ r, s = p +:+ r.
Proof.
  revert s. induction p as [|a p IH]; intros s.
  - destruct s; simpl; split; eauto.
  - destruct s as [|b s]; simpl.
    + split; [done | by intros [r Hr]].
    + destruct (ascii_dec a b) as [-> | Hne].
      * rewrite IH. split; intros [r Hr]; exists r; [by rewrite Hr | by injection Hr].
      * split; [done | intros [r Hr]; injection Hr; congruence].
Qed.

(** [strings_Contains] holds exactly when the string splits around an
    occurrence of the substring. *)
Lemma strings_Contains_split (s substr : string) :
  strings_Contains s substr = true ↔ ∃ s1 s2, s = s1 +:+ substr +:+ s2.
Proof.
  induction s as [|c s IH]; cbn [strings_Contains]; rewrite orb_true_iff, prefix_app.
  - split.
    + intros [[r Hr] | ?]; [|done]. by exists "", r.
    + intros (s1 & s2 & Hs). left. destruct s1; [by exists s2 | done].
  - rewrite IH. split.
    + intros [[r Hr] | (s1 & s2 & Hs)]; [by exists "", r|].
      exists (String c s1), s2. simpl. by rewrite Hs.
    + intros (s1 & s2 & Hs). destruct s1 as [|c' s1].
      * left. by exists s2.
      * right. exists s1, s2. simpl in Hs. by injection Hs.
Qed.

(** [Validate] reports a partial wildcard for a field exactly when the
    field is not the wildcard itself and has a wildcard character
    somewhere in it; the check is made on each of the four fields
    whatever the others hold. *)
Theorem Validate_partial_wildcard
    (metaKeyMaxLength metaMaxKeyPairs metaValueMaxLength : Z)
    (kvs : list (string * string)) (x : Intention) (f : Field) :
  range_of (Meta x) kvs →
  PartialWildcard f
    ∈ Validate_errors metaKeyMaxLength metaMaxKeyPairs metaValueMaxLength kvs x
  ↔ field_of f x ≠ "*" ∧ ∃ s1 s2, field_of f x = s1 +:+ "*" +:+ s2.
Proof.
  intros Hr.
  rewrite (elem_of_Validate_errors _ _ _ kvs x _ Hr). simpl.
  by rewrite strings_Contains_split.
Qed.

Lemma Validate_partial_wildcard_witness :
  PartialWildcard FSourceName ∈ Validate_errors 128 64 512 [] partial_wildcard.
Proof.
  assert (Hr : range_of (Meta partial_wildcard) []).
  { unfold range_of. simpl. by rewrite map_to_list_empty. }
  apply (Validate_partial_wildcard 128 64 512 [] partial_wildcard FSourceName Hr).
  split; [done|]. by exists "web", "".
Defined.

(** ** Sorted slices *)

Lemma StronglySorted_lookup_lt {A} (R : relation A) (l : list A) :
  StronglySorted R l →
  ∀ i j a b, (i < j)%nat → l !! i = Some a → l !! j = Some b → R a b.
Proof.
  induction 1 as [|x l Hl IH Hx]; intros i j a b Hij Hi Hj; [done|].
  destruct j as [|j]; [lia|]. simpl in Hj.
  destruct i as [|i]; simpl in Hi.
  - injection Hi as <-. rewrite Forall_forall in Hx.
    apply Hx. by eapply list_elem_of_lookup_2.
  - apply (IH i j); [lia | done..].
Qed.

(** In a slice that is in order for the sorter, precedences never
    increase from the head on: index 0 has the highest precedence, and
    an intention placed before another is never [Less]-later than it. *)
Theorem sorted_highest_first (s : IntentionPrecedenceSorter) (i j : nat)
    (a b : Intention) :
  sorted s → (i < j)%nat → s !! i = Some a → s !! j = Some b →
  Precedence b ≤ Precedence a ∧ Less s j i = Some false.
Proof.
  intros Hs Hij Hi Hj.
  assert (Hord : in_order a b).
  { apply (StronglySorted_lookup_lt in_order s) with i j; try done.
    apply Sorted_StronglySorted; [apply _ | exact Hs]. }
  unfold in_order in Hord. split.
  - destruct (Z.le_gt_cases (Precedence b) (Precedence a)) as [Hle | Hgt]; [done|].
    unfold less in Hord.
    rewrite (proj2 (Z.eqb_neq _ _)) in Hord by lia. simpl in Hord.
    apply Z.ltb_ge in Hord. lia.
  - unfold Less. rewrite Hi, Hj. simpl. by rewrite Hord.
Qed.

Lemma sorted_highest_first_witness :
  Precedence (UpdatePrecedence any_to_any) ≤ Precedence (UpdatePrecedence web_to_db)
  ∧ Less (merge_sort in_order three_rules) 2 0 = Some false.
Proof.
  apply (sorted_highest_first (merge_sort in_order three_rules) 0 2).
  - apply (Sorted_merge_sort in_order).
  - lia.
  - reflexivity.
  - reflexivity.
Defined.

(** When no two intentions of a slice have the same four names, as in a
    store that keeps one intention per source and destination, the
    order of the sorted slice is fully determined: two sorted
    arrangements of the slice are the same slice, whatever the
    precedences are. *)
Theorem sorted_unique_names (l1 l2 : list Intention) :
  NoDup ((λ a, (sort_key a).2) <$> l1) →
  sorted l1 → sorted l2 → l1 ≡ₚ l2 → l1 = l2.
Proof.
  intros Hnd H1 H2 Hp. apply sorted_unique; [|done..].
  apply (NoDup_fmap_1 snd). by rewrite <- list_fmap_compose.
Qed.

Lemma sorted_unique_names_witness :
  merge_sort in_order (reverse three_rules) = merge_sort in_order three_rules.
Proof.
  apply sorted_unique_names.
  - apply (bool_decide_unpack _). vm_compute. exact I.
  - apply (Sorted_merge_sort in_order).
  - apply (Sorted_merge_sort in_order).
  - by rewrite !(merge_sort_Permutation in_order), reverse_Permutation.
Defined.
